(** * Unit progress hook of the scanning engine

    A shallow embedding of [pkg/sources/job_progress_hook.go]: the
    [UnitHook] aggregator that records per-unit metrics in a bounded
    least-recently-used cache of pointers to [UnitMetrics] records.

    The Go code keeps [*UnitMetrics] pointers in the cache and mutates the
    records through them.  The embedding keeps that shape: a heap of
    records (a pointer is an index into it), a cache from keys to pointers
    ordered by recency, and the log of the diagnostics emitted by the
    eviction callback.  Every method holds the hook's mutex for its whole
    body, so a method call is one atomic state transformer. *)

From Stdlib Require Import Decimal DecimalString DecimalZ DecimalPos.
From Stdlib Require Import ZArith String Ascii Bool Lia List.
Import ListNotations.

Local Open Scope Z_scope.

(** ** Collaborator types

    [time.Time] values are instants; an instant is a number of nanoseconds.
    A [*time.Time] is an [option Time]. *)

Definition Time : Type := Z.

(** Modelled from the spec: a non-nil value of the interface [SourceUnit],
    which is declared outside this file and exposes a stable string
    identifier; the hook only ever calls [SourceUnitID()] on it. *)
Record SourceUnitImpl : Type := mkUnit { SourceUnitID : string }.

(** A [SourceUnit] interface value, [None] being the nil interface. *)
Definition SourceUnit : Type := option SourceUnitImpl.

(** Modelled from the spec: the [error] values that reach [ReportError] and
    the unit-scoped wrapper [ChunkError] (declared outside this file): an
    error is a plain message, a wrapper around another error, or a
    [ChunkError] that names the unit it pertains to and wraps its cause. *)
Inductive error : Type :=
| errors_New (msg : string)
| fmt_Errorf (msg : string) (wrapped : error)
| ChunkError (Unit : SourceUnit) (Err : error).

(** [errors.As(err, &chunkErr)]: the first [ChunkError] on the unwrap chain
    of [err], if any; the result is the [Unit] field of that [ChunkError]. *)
Fixpoint errors_As_ChunkError (err : error) : option SourceUnit :=
  match err with
  | errors_New _ => None
  | fmt_Errorf _ wrapped => errors_As_ChunkError wrapped
  | ChunkError Unit _ => Some Unit
  end.

Module JobProgressMetrics.
(** Modelled from the spec: the job-level snapshot read by the hook, with
    the job's start time, end time and accumulated errors. *)
Record t : Type := mk {
  StartTime : option Time;
  EndTime : option Time;
  Errors : list error
}.
End JobProgressMetrics.

(** Modelled from the spec: a job reference, made of a source identifier
    and a job identifier (64-bit integers), with a snapshot accessor.  The
    snapshot is owned by the orchestrator; a reference carries the value
    that [Snapshot()] returns at the time of the call it is passed to. *)
Record JobProgressRef : Type := mkRef {
  SourceID : Z;
  JobID : Z;
  Snapshot : JobProgressMetrics.t
}.

(** Modelled from the spec: a chunk, declared outside this file, with a
    payload whose length can be measured; the hook reads only
    [len(chunk.Data)]. *)
Record Chunk : Type := mkChunk { Data : list Byte.byte }.

(** ** The metrics record *)

Record UnitMetrics : Type := mkUnitMetrics {
  Unit : SourceUnit;
  Parent : JobProgressRef;
  StartTime : option Time;
  EndTime : option Time;
  TotalChunks : Z;
  TotalBytes : Z;
  Errors : list error;
  handled : bool
}.

Definition IsFinished (u : UnitMetrics) : bool :=
  match EndTime u with
  | Some _ => true
  | None => false
  end.

(** A [time.Duration] is an [int64] count of nanoseconds. *)
Definition minDuration : Z := - 2 ^ 63.

Definition maxDuration : Z := 2 ^ 63 - 1.

(** [t.Sub(u)]: the duration [t - u], or the minimum or the maximum
    duration when the difference does not fit a [time.Duration]. *)
Definition time_Sub (t u : Time) : Z :=
  if t - u <? minDuration then minDuration
  else if maxDuration <? t - u then maxDuration
  else t - u.

(** [ElapsedTime]: 0 with no start time; [time.Since] of the start time,
    that is [Sub] of the clock reading [now] and the start time, with no end
    time; otherwise [Sub] of the end time and the start time. *)
Definition ElapsedTime (now : Time) (u : UnitMetrics) : Z :=
  match StartTime u with
  | None => 0
  | Some s =>
      match EndTime u with
      | None => time_Sub now s
      | Some e => time_Sub e s
      end
  end.

(** Arithmetic on [uint64] wraps modulo 2^64. *)
Definition uint64 (z : Z) : Z := z mod 2 ^ 64.

(** ** The least-recently-used cache *)

(** Modelled from the spec: the bounded cache, which comes from the library
    [hashicorp/golang-lru/v2] and is not part of this repository: a fixed
    capacity, least-recently-used eviction, a lookup or an update that
    refreshes the recency of the entry, and an eviction callback that fires
    synchronously with the evicted key and value, on [Remove] as on
    eviction by capacity (the [handled] flag of the metrics exists to tell
    the two apart).  The entries are kept in recency order, most recently
    used first.  [Add] and [Remove] return the entry they evict, which the
    owner of the cache passes to the callback. *)
Module lru.
Section Cache.
Context {V : Type}.

Record Cache : Type := mkCache {
  items : list (string * V);
  size : nat
}.

Fixpoint lookup (key : string) (l : list (string * V)) : option V :=
  match l with
  | [] => None
  | (k, v) :: rest => if String.eqb k key then Some v else lookup key rest
  end.

Fixpoint delete (key : string) (l : list (string * V)) : list (string * V) :=
  match l with
  | [] => []
  | (k, v) :: rest =>
      if String.eqb k key then rest else (k, v) :: delete key rest
  end.

Fixpoint oldest (l : list (string * V)) : option (string * V) :=
  match l with
  | [] => None
  | [e] => Some e
  | _ :: rest => oldest rest
  end.

Definition New (size : nat) : Cache := mkCache [] size.

Definition Len (c : Cache) : nat := length (items c).

(** [Keys] lists the keys from oldest to newest and touches no recency. *)
Definition Keys (c : Cache) : list string := rev (map fst (items c)).

(** [Get] moves a found entry to the front. *)
Definition Get (key : string) (c : Cache) : option V * Cache :=
  match lookup key (items c) with
  | Some v => (Some v, mkCache ((key, v) :: delete key (items c)) (size c))
  | None => (None, c)
  end.

(** [Add] on a resident key replaces the value and moves the entry to the
    front, without eviction; on a new key it pushes the entry to the front
    and, when the capacity is exceeded, evicts the oldest entry. *)
Definition Add (key : string) (value : V) (c : Cache)
  : option (string * V) * Cache :=
  match lookup key (items c) with
  | Some _ => (None, mkCache ((key, value) :: delete key (items c)) (size c))
  | None =>
      let l := (key, value) :: items c in
      if (size c <? length l)%nat
      then (oldest l, mkCache (removelast l) (size c))
      else (None, mkCache l (size c))
  end.

(** [Remove] takes a resident entry out and reports it as evicted. *)
Definition Remove (key : string) (c : Cache) : option (string * V) * Cache :=
  match lookup key (items c) with
  | Some v => (Some (key, v), mkCache (delete key (items c)) (size c))
  | None => (None, c)
  end.

End Cache.
Arguments Cache V : clear implicits.
End lru.

(** ** The hook *)

Definition ptr : Type := nat.

(** A diagnostic emitted by the eviction callback: the key and the value
    of the dropped metric. *)
Definition Diagnostic : Type := (string * UnitMetrics)%type.

(** The state of a hook: the cache of pointers, the records they point to
    and the diagnostics logged so far.  The capacity is a field of the
    cache ([WithUnitHookCache] can install a cache of another size); the
    eviction callback is the one that [NewUnitHook] installs. *)
Record UnitHook : Type := mkUnitHook {
  metrics : lru.Cache ptr;
  heap : list UnitMetrics;
  logger : list Diagnostic
}.

Definition zeroUnitMetrics : UnitMetrics :=
  mkUnitMetrics None (mkRef 0 0 (JobProgressMetrics.mk None None []))
                None None 0 0 [] false.

Definition deref (h : list UnitMetrics) (p : ptr) : UnitMetrics :=
  nth p h zeroUnitMetrics.

Fixpoint store (p : ptr) (f : UnitMetrics -> UnitMetrics)
  (h : list UnitMetrics) : list UnitMetrics :=
  match h with
  | [] => []
  | m :: rest =>
      match p with
      | O => f m :: rest
      | S p' => m :: store p' f rest
      end
  end.

(** [&UnitMetrics{...}]: a fresh record at the end of the heap. *)
Definition alloc (m : UnitMetrics) (u : UnitHook) : ptr * UnitHook :=
  (List.length (heap u), mkUnitHook (metrics u) (heap u ++ [m]) (logger u)).

(** A write through a pointer. *)
Definition update (p : ptr) (f : UnitMetrics -> UnitMetrics) (u : UnitHook)
  : UnitHook :=
  mkUnitHook (metrics u) (store p f (heap u)) (logger u).

(** The eviction callback installed by [NewUnitHook]: silent on a handled
    metric, otherwise it logs the error "dropping unit metric". *)
Definition onEvict (key : string) (value : ptr) (u : UnitHook) : UnitHook :=
  let m := deref (heap u) value in
  if handled m then u
  else mkUnitHook (metrics u) (heap u) (logger u ++ [(key, m)]).

Definition evicted (e : option (string * ptr)) (u : UnitHook) : UnitHook :=
  match e with
  | None => u
  | Some (key, value) => onEvict key value u
  end.

Definition metrics_Get (key : string) (u : UnitHook) : option ptr * UnitHook :=
  let (r, c) := lru.Get key (metrics u) in
  (r, mkUnitHook c (heap u) (logger u)).

Definition metrics_Add (key : string) (value : ptr) (u : UnitHook) : UnitHook :=
  let (e, c) := lru.Add key value (metrics u) in
  evicted e (mkUnitHook c (heap u) (logger u)).

Definition metrics_Remove (key : string) (u : UnitHook) : UnitHook :=
  let (e, c) := lru.Remove key (metrics u) in
  evicted e (mkUnitHook c (heap u) (logger u)).

(** [NewUnitHook]: an empty cache of 1024 entries. *)
Definition NewUnitHook : UnitHook := mkUnitHook (lru.New 1024) [] [].

(** [fmt.Sprintf("%d", z)]: the decimal numeral of an integer. *)
Definition fmt_d (z : Z) : string := NilZero.string_of_int (Z.to_int z).

(** [id] generates the cache key of a job and a unit. *)
Definition id (ref : JobProgressRef) (unit : SourceUnit) : string :=
  let unitID :=
    match unit with
    | Some un => SourceUnitID un
    | None => EmptyString
    end in
  (fmt_d (SourceID ref) ++ "/" ++ fmt_d (JobID ref) ++ "/" ++ unitID)%string.

Definition StartUnitChunking (ref : JobProgressRef) (unit : SourceUnit)
  (start : Time) (u : UnitHook) : UnitHook :=
  let id := id ref unit in
  let (p, u1) :=
    alloc (mkUnitMetrics unit ref (Some start) None 0 0 [] false) u in
  metrics_Add id p u1.

Definition setEndTime (e : option Time) (m : UnitMetrics) : UnitMetrics :=
  mkUnitMetrics (Unit m) (Parent m) (StartTime m) e
                (TotalChunks m) (TotalBytes m) (Errors m) (handled m).

Definition EndUnitChunking (ref : JobProgressRef) (unit : SourceUnit)
  (end_ : Time) (u : UnitHook) : UnitHook :=
  let id := id ref unit in
  match metrics_Get id u with
  | (None, _) => u
  | (Some p, u1) => update p (setEndTime (Some end_)) u1
  end.

(** [metrics.TotalChunks++; metrics.TotalBytes += uint64(len(chunk.Data))] *)
Definition countChunk (chunk : Chunk) (m : UnitMetrics) : UnitMetrics :=
  mkUnitMetrics (Unit m) (Parent m) (StartTime m) (EndTime m)
                (uint64 (TotalChunks m + 1))
                (uint64 (TotalBytes m +
                         uint64 (Z.of_nat (List.length (Data chunk)))))
                (Errors m) (handled m).

Definition ReportChunk (ref : JobProgressRef) (unit : SourceUnit)
  (chunk : Chunk) (u : UnitHook) : UnitHook :=
  let id := id ref unit in
  match metrics_Get id u with
  | (Some p, u1) => update p (countChunk chunk) u1
  | (None, u1) =>
      match unit with
      | Some _ => u1
      | None =>
          let (p, u2) :=
            alloc (mkUnitMetrics None ref
                     (JobProgressMetrics.StartTime (Snapshot ref))
                     None 0 0 [] false) u1 in
          let u3 := metrics_Add id p u2 in
          update p (countChunk chunk) u3
      end
  end.

(** [metrics.Errors = append(metrics.Errors, err)] *)
Definition appendError (err : error) (m : UnitMetrics) : UnitMetrics :=
  mkUnitMetrics (Unit m) (Parent m) (StartTime m) (EndTime m)
                (TotalChunks m) (TotalBytes m) (Errors m ++ [err]) (handled m).

(** The first block of [ReportError]: "Always add the error to the nil
    unit if it exists." *)
Definition ReportError_nil (ref : JobProgressRef) (err : error) (u : UnitHook)
  : UnitHook :=
  match metrics_Get (id ref None) u with
  | (Some p, u') => update p (appendError err) u'
  | (None, u') => u'
  end.

Definition ReportError (ref : JobProgressRef) (err : error) (u : UnitHook)
  : UnitHook :=
  let u1 := ReportError_nil ref err u in
  match errors_As_ChunkError err with
  | None => u1
  | Some chunkErr_Unit =>
      let id := id ref chunkErr_Unit in
      match metrics_Get id u1 with
      | (None, _) => u1
      | (Some p, u2) => update p (appendError err) u2
      end
  end.

(** [strings.HasPrefix(s, prefix)] *)
Definition HasPrefix (s prefix : string) : bool := String.prefix prefix s.

Definition useJobMetrics (snap : JobProgressMetrics.t) (m : UnitMetrics)
  : UnitMetrics :=
  mkUnitMetrics (Unit m) (Parent m)
                (JobProgressMetrics.StartTime snap)
                (JobProgressMetrics.EndTime snap)
                (TotalChunks m) (TotalBytes m)
                (JobProgressMetrics.Errors snap) (handled m).

(** One iteration of the loop of [Finish]; a [continue] leaves the state as
    it is. *)
Definition Finish_body (ref : JobProgressRef) (prefix : string)
  (u : UnitHook) (id : string) : UnitHook :=
  if negb (HasPrefix id prefix) then u
  else
    match metrics_Get id u with
    | (None, _) => u
    | (Some p, u1) =>
        match Unit (deref (heap u1) p) with
        | None =>
            let snap := Snapshot ref in
            update p (useJobMetrics snap) u1
        | Some _ => u1
        end
    end.

(** [Finish] ranges over the keys listed before the loop starts. *)
Definition Finish (ref : JobProgressRef) (u : UnitHook) : UnitHook :=
  let prefix := id ref None in
  fold_left (Finish_body ref prefix) (lru.Keys (metrics u)) u.

Definition setHandled (m : UnitMetrics) : UnitMetrics :=
  mkUnitMetrics (Unit m) (Parent m) (StartTime m) (EndTime m)
                (TotalChunks m) (TotalBytes m) (Errors m) true.

(** One iteration of the loop of [UnitMetrics], on the output built so far
    and the state.  The output receives a copy of the metric, taken before
    the metric is marked handled. *)
Definition UnitMetrics_body (acc : list UnitMetrics * UnitHook) (id : string)
  : list UnitMetrics * UnitHook :=
  let (output, u) := acc in
  match metrics_Get id u with
  | (None, _) => (output, u)
  | (Some p, u1) =>
      let metric := deref (heap u1) p in
      let output := output ++ [metric] in
      if IsFinished metric
      then (output, metrics_Remove id (update p setHandled u1))
      else (output, u1)
  end.

(** [UnitMetrics()]; the trailing underscore keeps the name apart from the
    record type. *)
Definition UnitMetrics_ (u : UnitHook) : list UnitMetrics * UnitHook :=
  fold_left UnitMetrics_body (lru.Keys (metrics u)) ([], u).

(** ** Calls and traces *)

Inductive Call : Type :=
| CallStartUnitChunking (ref : JobProgressRef) (unit : SourceUnit)
    (start : Time)
| CallEndUnitChunking (ref : JobProgressRef) (unit : SourceUnit)
    (end_ : Time)
| CallReportChunk (ref : JobProgressRef) (unit : SourceUnit)
    (chunk : Chunk)
| CallReportError (ref : JobProgressRef) (err : error)
| CallFinish (ref : JobProgressRef)
| CallUnitMetrics.

Definition call (c : Call) (u : UnitHook) : UnitHook :=
  match c with
  | CallStartUnitChunking ref unit start => StartUnitChunking ref unit start u
  | CallEndUnitChunking ref unit end_ => EndUnitChunking ref unit end_ u
  | CallReportChunk ref unit chunk => ReportChunk ref unit chunk u
  | CallReportError ref err => ReportError ref err u
  | CallFinish ref => Finish ref u
  | CallUnitMetrics => snd (UnitMetrics_ u)
  end.

Definition run (cs : list Call) (u : UnitHook) : UnitHook :=
  fold_left (fun u c => call c u) cs u.

(** ** Views of a hook state used by the statements *)

(** The unit identifier that [id] prints: empty for the nil unit. *)
Definition unitID (unit : SourceUnit) : string :=
  match unit with
  | Some un => SourceUnitID un
  | None => EmptyString
  end.

(** The key under which the hook files a metric. *)
Definition key_of (m : UnitMetrics) : string := id (Parent m) (Unit m).

(** The pointer cached under a key, and the record it points to. *)
Definition resident (u : UnitHook) (key : string) : option ptr :=
  lru.lookup key (lru.items (metrics u)).

Definition entry (u : UnitHook) (key : string) : option UnitMetrics :=
  option_map (deref (heap u)) (resident u key).

(** The records of an output of [UnitMetrics()] that belong to a key. *)
Definition records_for (key : string) (output : list UnitMetrics)
  : list UnitMetrics :=
  filter (fun m => String.eqb (key_of m) key) output.

Fixpoint has_slash (s : string) : bool :=
  match s with
  | EmptyString => false
  | String c rest => if Ascii.eqb c "/" then true else has_slash rest
  end.

Fixpoint nodupb (l : list string) : bool :=
  match l with
  | [] => true
  | x :: rest => negb (existsb (String.eqb x) rest) && nodupb rest
  end.

(** The counters of a record are [uint64] values. *)
Definition in_range (m : UnitMetrics) : bool :=
  (0 <=? TotalChunks m) && (TotalChunks m <? 2 ^ 64) &&
  (0 <=? TotalBytes m) && (TotalBytes m <? 2 ^ 64).

(** The states the hook can be in: the cache has a positive capacity that
    it does not exceed and no key twice; every cached pointer is allocated
    and points to a record that is filed under its own key, is not yet
    marked handled and has counters in the [uint64] range. *)
Definition wf (u : UnitHook) : bool :=
  let c := metrics u in
  nodupb (map fst (lru.items c)) &&
  (1 <=? lru.size c)%nat &&
  (List.length (lru.items c) <=? lru.size c)%nat &&
  forallb (fun e : string * ptr =>
             let m := deref (heap u) (snd e) in
             (snd e <? List.length (heap u))%nat &&
             String.eqb (key_of m) (fst e) &&
             negb (handled m) &&
             in_range m)
          (lru.items c).

(** The sum of the payload lengths of a list of chunks. *)
Definition payload (chunks : list Chunk) : Z :=
  fold_right (fun c acc => Z.of_nat (List.length (Data c)) + acc) 0 chunks.

(** ** Invariant and auxiliary notions of the proofs *)

(** The invariant [wf] as a proposition over lookups. *)
Record WF (u : UnitHook) : Prop := mkWF {
  WF_keys : NoDup (map fst (lru.items (metrics u)));
  WF_size : (1 <= lru.size (metrics u))%nat;
  WF_len : (List.length (lru.items (metrics u)) <= lru.size (metrics u))%nat;
  WF_ptr : forall k p,
    resident u k = Some p -> (p < List.length (heap u))%nat;
  WF_key : forall k p,
    resident u k = Some p -> key_of (deref (heap u) p) = k;
  WF_unhandled : forall k p,
    resident u k = Some p -> handled (deref (heap u) p) = false;
  WF_range : forall k p,
    resident u k = Some p -> in_range (deref (heap u) p) = true
}.

(** [reordered u u1]: [u1] is [u] up to the recency order of the cache. *)
Record reordered (u u1 : UnitHook) : Prop := mkReordered {
  ro_heap : heap u1 = heap u;
  ro_logger : logger u1 = logger u;
  ro_resident : forall k, resident u1 k = resident u k;
  ro_size : lru.size (metrics u1) = lru.size (metrics u);
  ro_len : List.length (lru.items (metrics u1)) =
           List.length (lru.items (metrics u));
  ro_keys : NoDup (map fst (lru.items (metrics u))) ->
            NoDup (map fst (lru.items (metrics u1)))
}.

(** A field update that keeps the identity, the handled flag and the range
    of the counters. *)
Definition benign (f : UnitMetrics -> UnitMetrics) : Prop :=
  forall m, Unit (f m) = Unit m /\ Parent (f m) = Parent m /\
            handled (f m) = handled m /\
            (in_range m = true -> in_range (f m) = true).

(** Look a key up and, when it is resident, write through its pointer: the
    pattern shared by the reporting methods. *)
Definition modify (key : string) (f : UnitMetrics -> UnitMetrics)
  (u : UnitHook) : UnitHook :=
  match metrics_Get key u with
  | (Some p, u1) => update p f u1
  | (None, _) => u
  end.

(** A record with more errors appended. *)
Definition addErrors (errs : list error) (m : UnitMetrics) : UnitMetrics :=
  mkUnitMetrics (Unit m) (Parent m) (StartTime m) (EndTime m)
                (TotalChunks m) (TotalBytes m) (Errors m ++ errs) (handled m).

(** The record that [StartUnitChunking] allocates. *)
Definition startedMetrics (ref : JobProgressRef) (unit : SourceUnit)
  (start : Time) : UnitMetrics :=
  mkUnitMetrics unit ref (Some start) None 0 0 [] false.

(** The record that [ReportChunk] allocates for a source without units. *)
Definition syntheticMetrics (ref : JobProgressRef) : UnitMetrics :=
  mkUnitMetrics None ref (JobProgressMetrics.StartTime (Snapshot ref))
                None 0 0 [] false.

(** The record cached under a key, as the list of zero or one record that
    [UnitMetrics()] outputs for it. *)
Definition view (u : UnitHook) (key : string) : list UnitMetrics :=
  match entry u key with
  | Some m => [m]
  | None => []
  end.

(** What [Finish] does to the record cached under a key. *)
Definition finishMetrics (ref : JobProgressRef) (key : string)
  (m : UnitMetrics) : UnitMetrics :=
  if HasPrefix key (id ref None)
  then match Unit m with
       | None => useJobMetrics (Snapshot ref) m
       | Some _ => m
       end
  else m.

(** What [UnitMetrics()] leaves of the record cached under a key. *)
Definition drained (o : option UnitMetrics) : option UnitMetrics :=
  match o with
  | Some m => if IsFinished m then None else Some m
  | None => None
  end.

(** The errors that [ReportError] files under a key: one for the job's
    no-unit key, one for the key of the unit named by a [ChunkError]. *)
Definition reportedUnder (ref : JobProgressRef) (err : error) (key : string)
  : list error :=
  (if String.eqb key (id ref None) then [err] else []) ++
  match errors_As_ChunkError err with
  | Some chunkErr_Unit =>
      if String.eqb key (id ref chunkErr_Unit) then [err] else []
  | None => []
  end.

(** The record found under a key after a call, from the record found under
    it before the call, for a key that is resident before and after. *)
Definition effect (key : string) (c : Call) (m : UnitMetrics) : UnitMetrics :=
  match c with
  | CallStartUnitChunking ref unit start =>
      if String.eqb (id ref unit) key then startedMetrics ref unit start
      else m
  | CallEndUnitChunking ref unit end_ =>
      if String.eqb (id ref unit) key then setEndTime (Some end_) m else m
  | CallReportChunk ref unit chunk =>
      if String.eqb (id ref unit) key then countChunk chunk m else m
  | CallReportError ref err => addErrors (reportedUnder ref err key) m
  | CallFinish ref => finishMetrics ref key m
  | CallUnitMetrics => m
  end.

(** The calls that start a unit under a key. *)
Definition starts (key : string) (c : Call) : bool :=
  match c with
  | CallStartUnitChunking ref unit _ => String.eqb (id ref unit) key
  | _ => false
  end.

(** The calls that can make an absent key resident: a start, or a chunk of
    a source without units. *)
Definition creates (key : string) (c : Call) : bool :=
  match c with
  | CallStartUnitChunking ref unit _ => String.eqb (id ref unit) key
  | CallReportChunk ref None _ => String.eqb (id ref None) key
  | _ => false
  end.

(** The calls that leave the unit filed under a key in progress: neither a
    start nor an end of that unit, nor the [Finish] of its job. *)
Definition in_progress (key : string) (c : Call) : bool :=
  match c with
  | CallStartUnitChunking ref unit _ => negb (String.eqb (id ref unit) key)
  | CallEndUnitChunking ref unit _ => negb (String.eqb (id ref unit) key)
  | CallFinish ref => negb (HasPrefix key (id ref None))
  | _ => true
  end.

(** The chunks that a trace reports under a key. *)
Definition chunksFor (key : string) (cs : list Call) : list Chunk :=
  flat_map (fun c =>
              match c with
              | CallReportChunk ref unit chunk =>
                  if String.eqb (id ref unit) key then [chunk] else []
              | _ => []
              end) cs.

(** The key is resident after every call of the trace: its entry is never
    evicted. *)
Fixpoint stays_resident (key : string) (cs : list Call) (u : UnitHook)
  : bool :=
  match cs with
  | [] => true
  | c :: rest =>
      match resident (call c u) key with
      | Some _ => stays_resident key rest (call c u)
      | None => false
      end
  end.

(** The record of a unit in progress that was started at [start] and has
    seen [n] chunks of [b] bytes in total. *)
Definition tracking (ref : JobProgressRef) (unit : SourceUnit) (start : Time)
  (n b : Z) (m : UnitMetrics) : Prop :=
  Unit m = unit /\ Parent m = ref /\ StartTime m = Some start /\
  EndTime m = None /\ TotalChunks m = uint64 n /\ TotalBytes m = uint64 b.

(** The same job: equal source and job identifiers. *)
Definition same_job (a b : JobProgressRef) : bool :=
  (SourceID a =? SourceID b) && (JobID a =? JobID b).

(** The calls in which a job uses a unit: the chunking events of that job
    that carry a non-nil unit. *)
Definition uses_unit (ref : JobProgressRef) (c : Call) : bool :=
  match c with
  | CallStartUnitChunking r (Some _) _ => same_job ref r
  | CallEndUnitChunking r (Some _) _ => same_job ref r
  | CallReportChunk r (Some _) _ => same_job ref r
  | _ => false
  end.

(** The increment that a call makes to the counters of a record does not
    overflow the [uint64] range. *)
Definition fits (c : Call) (m : UnitMetrics) : bool :=
  match c with
  | CallReportChunk _ _ chunk =>
      (TotalChunks m + 1 <? 2 ^ 64) &&
      (TotalBytes m + Z.of_nat (List.length (Data chunk)) <? 2 ^ 64)
  | _ => true
  end.

(** The end time found under a key after a call, when the key is resident
    before and after the call and its end time was [e] before. *)
Definition endTimeAfter (key : string) (c : Call) (m : UnitMetrics) (e : Time)
  : option Time :=
  match c with
  | CallStartUnitChunking ref unit _ =>
      if String.eqb (id ref unit) key then None else Some e
  | CallEndUnitChunking ref unit end_ =>
      if String.eqb (id ref unit) key then Some end_ else Some e
  | CallFinish ref =>
      if HasPrefix key (id ref None)
      then match Unit m with
           | None => JobProgressMetrics.EndTime (Snapshot ref)
           | Some _ => Some e
           end
      else Some e
  | _ => Some e
  end.

(** ** Notions of the further properties *)

(** The cache entries whose record has no end time in a heap. *)
Definition unfinished (h : list UnitMetrics) (e : string * ptr) : bool :=
  negb (IsFinished (deref h (snd e))).

(** A list of errors reported for a job, one call after the other. *)
Definition reportErrors (ref : JobProgressRef) (errs : list error)
  (u : UnitHook) : UnitHook :=
  fold_left (fun u err => ReportError ref err u) errs u.

(** The calls of [Finish]. *)
Definition isFinish (c : Call) : bool :=
  match c with
  | CallFinish _ => true
  | _ => false
  end.

(** The calls of [ReportError]. *)
Definition isReportError (c : Call) : bool :=
  match c with
  | CallReportError _ _ => true
  | _ => false
  end.

(** The calls that insert a key into the cache: a start, or a chunk of a
    source without units. *)
Definition inserts (c : Call) : bool :=
  match c with
  | CallStartUnitChunking _ _ _ => true
  | CallReportChunk _ None _ => true
  | _ => false
  end.

(** The two counters found under a key after a call, when the key is
    resident before and after the call and held the record [m] before. *)
Definition countersAfter (key : string) (c : Call) (m : UnitMetrics)
  : Z * Z :=
  match c with
  | CallStartUnitChunking ref unit _ =>
      if String.eqb (id ref unit) key then (0, 0)
      else (TotalChunks m, TotalBytes m)
  | CallReportChunk ref unit chunk =>
      if String.eqb (id ref unit) key
      then (uint64 (TotalChunks m + 1),
            uint64 (TotalBytes m +
                    uint64 (Z.of_nat (List.length (Data chunk)))))
      else (TotalChunks m, TotalBytes m)
  | _ => (TotalChunks m, TotalBytes m)
  end.

(** The calls of [ReportChunk] under a key. *)
Definition reports (key : string) (c : Call) : bool :=
  match c with
  | CallReportChunk ref unit _ => String.eqb (id ref unit) key
  | _ => false
  end.

(** ** Key derivation *)

Lemma uint_digits_no_slash (d : Decimal.uint) :
  has_slash (NilEmpty.string_of_uint d) = false.
Proof. induction d; simpl; auto. Qed.

Lemma fmt_d_no_slash (z : Z) : has_slash (fmt_d z) = false.
Proof.
  unfold fmt_d, NilZero.string_of_int, NilZero.string_of_uint.
  destruct (Z.to_int z) as [d | d]; destruct d; simpl;
    auto using uint_digits_no_slash.
Qed.

Lemma to_int_canonical (z : Z) :
  Z.to_int z <> Decimal.Pos Decimal.Nil /\
  Z.to_int z <> Decimal.Neg Decimal.Nil.
Proof.
  destruct z; simpl; split; try discriminate;
    intros [= H]; now apply Unsigned.to_uint_nonnil in H.
Qed.

Lemma fmt_d_inj (a b : Z) : fmt_d a = fmt_d b -> a = b.
Proof.
  unfold fmt_d. intros H.
  apply DecimalZ.to_int_inj.
  destruct (to_int_canonical a) as [Ha1 Ha2], (to_int_canonical b) as [Hb1 Hb2].
  pose proof (NilZero.isi _ Ha1 Ha2) as Ea.
  pose proof (NilZero.isi _ Hb1 Hb2) as Eb.
  rewrite H in Ea. congruence.
Qed.

Lemma prefix_refl (s : string) : String.prefix s s = true.
Proof.
  induction s as [|c s IH]; simpl; auto.
  destruct (ascii_dec c c); congruence.
Qed.

Lemma prefix_append (s t : string) : String.prefix s (s ++ t) = true.
Proof.
  induction s as [|c s IH]; simpl.
  - now destruct t.
  - destruct (ascii_dec c c); congruence.
Qed.

Lemma prefix_cons (a b : ascii) (s t : string) :
  String.prefix (String a s) (String b t) = true <->
  a = b /\ String.prefix s t = true.
Proof.
  simpl. destruct (ascii_dec a b); intuition congruence.
Qed.

(** A slash-free field followed by a slash is read back unambiguously. *)
Lemma field_prefix (a a' r r' : string) :
  has_slash a = false -> has_slash a' = false ->
  String.prefix (a ++ String "/" r) (a' ++ String "/" r') = true ->
  a = a' /\ String.prefix r r' = true.
Proof.
  revert a'. induction a as [|c a IH]; intros [|c' a'] Ha Ha' H.
  - apply prefix_cons in H. tauto.
  - apply prefix_cons in H. destruct H as [<- _]. discriminate Ha'.
  - apply prefix_cons in H. destruct H as [-> _]. discriminate Ha.
  - cbn [append] in H. apply prefix_cons in H. destruct H as [<- H].
    simpl in Ha, Ha'.
    destruct (Ascii.eqb c "/"); try discriminate.
    destruct (IH a' Ha Ha' H) as [-> ?]. auto.
Qed.

Lemma field_eq (a a' r r' : string) :
  has_slash a = false -> has_slash a' = false ->
  (a ++ String "/" r = a' ++ String "/" r')%string ->
  a = a' /\ r = r'.
Proof.
  revert a'. induction a as [|c a IH]; intros [|c' a'] Ha Ha' H;
    cbn [append] in H.
  - injection H as ->. auto.
  - injection H as <- _. discriminate Ha'.
  - injection H as -> _. discriminate Ha.
  - injection H as <- H. simpl in Ha, Ha'.
    destruct (Ascii.eqb c "/"); try discriminate.
    destruct (IH a' Ha Ha' H) as [-> ->]. auto.
Qed.

Lemma id_unfold (ref : JobProgressRef) (unit : SourceUnit) :
  id ref unit =
  (fmt_d (SourceID ref) ++
   String "/" (fmt_d (JobID ref) ++ String "/" (unitID unit)))%string.
Proof. reflexivity. Qed.

Lemma id_eq_iff (ref ref' : JobProgressRef) (unit unit' : SourceUnit) :
  id ref unit = id ref' unit' <->
  SourceID ref = SourceID ref' /\ JobID ref = JobID ref' /\
  unitID unit = unitID unit'.
Proof.
  rewrite !id_unfold. split.
  - intros H.
    apply field_eq in H; auto using fmt_d_no_slash. destruct H as [Hs H].
    apply field_eq in H; auto using fmt_d_no_slash. destruct H as [Hj H].
    auto using fmt_d_inj.
  - intros (-> & -> & ->). reflexivity.
Qed.

Lemma id_prefix_iff (ref ref' : JobProgressRef) (unit' : SourceUnit) :
  HasPrefix (id ref' unit') (id ref None) = true <->
  SourceID ref = SourceID ref' /\ JobID ref = JobID ref'.
Proof.
  unfold HasPrefix. rewrite !id_unfold. split.
  - intros H.
    apply field_prefix in H; auto using fmt_d_no_slash. destruct H as [Hs H].
    apply field_prefix in H; auto using fmt_d_no_slash. destruct H as [Hj H].
    auto using fmt_d_inj.
  - intros (-> & ->). simpl unitID.
    assert (E : forall a b c : string,
               (a ++ String "/" (b ++ String "/" c))%string =
               ((a ++ String "/" (b ++ String "/" EmptyString)) ++ c)%string).
    { intros a b c. induction a as [|x a IH]; simpl.
      - f_equal. induction b as [|y b IHb]; simpl; congruence.
      - now rewrite IH. }
    rewrite (E _ _ (unitID unit')). apply prefix_append.
Qed.

(** ** Facts about the cache *)

Section lru_facts.
Context {V : Type}.
Implicit Types (l : list (string * V)) (k key : string) (v : V).

Lemma lookup_In l k v : lru.lookup k l = Some v -> In (k, v) l.
Proof.
  induction l as [|[k0 v0] l IH]; simpl; [discriminate|].
  destruct (String.eqb_spec k0 k) as [->|]; [intros [= ->]|]; auto.
Qed.

Lemma lookup_None l k : lru.lookup k l = None <-> ~ In k (map fst l).
Proof.
  induction l as [|[k0 v0] l IH]; simpl; [tauto|].
  destruct (String.eqb_spec k0 k) as [->|]; [|tauto].
  split; [discriminate|tauto].
Qed.

Lemma In_lookup l k v :
  NoDup (map fst l) -> In (k, v) l -> lru.lookup k l = Some v.
Proof.
  induction l as [|[k0 v0] l IH]; simpl; [tauto|].
  intros Hnd [[= -> ->]|Hin].
  - now rewrite String.eqb_refl.
  - inversion Hnd as [|? ? Hk0 Hnd']; subst.
    destruct (String.eqb_spec k0 k) as [->|]; auto.
    exfalso. apply Hk0. now apply (in_map fst) in Hin.
Qed.

Lemma lookup_delete_ne l k k' :
  k' <> k -> lru.lookup k' (lru.delete k l) = lru.lookup k' l.
Proof.
  intros Hne. induction l as [|[k0 v0] l IH]; simpl; auto.
  destruct (String.eqb_spec k0 k) as [->|]; simpl.
  - destruct (String.eqb_spec k k'); congruence.
  - now rewrite IH.
Qed.

Lemma In_delete l k x : In x (map fst (lru.delete k l)) -> In x (map fst l).
Proof.
  induction l as [|[k0 v0] l IH]; simpl; auto.
  destruct (String.eqb k0 k); simpl; tauto.
Qed.

Lemma NoDup_delete l k :
  NoDup (map fst l) -> NoDup (map fst (lru.delete k l)).
Proof.
  induction l as [|[k0 v0] l IH]; simpl; auto.
  intros Hnd. inversion Hnd as [|? ? Hk0 Hnd']; subst.
  destruct (String.eqb k0 k); simpl; auto.
  constructor; auto. intros Hin. now apply In_delete in Hin.
Qed.

Lemma lookup_delete_eq l k :
  NoDup (map fst l) -> lru.lookup k (lru.delete k l) = None.
Proof.
  induction l as [|[k0 v0] l IH]; simpl; auto.
  intros Hnd. inversion Hnd as [|? ? Hk0 Hnd']; subst.
  destruct (String.eqb_spec k0 k) as [->|Hne]; simpl.
  - now apply lookup_None.
  - destruct (String.eqb_spec k0 k); [contradiction|auto].
Qed.

Lemma length_delete l k v :
  lru.lookup k l = Some v -> S (List.length (lru.delete k l)) = List.length l.
Proof.
  induction l as [|[k0 v0] l IH]; simpl; [discriminate|].
  destruct (String.eqb k0 k); simpl; auto.
Qed.

Lemma In_removelast_keys l x :
  In x (map fst (removelast l)) -> In x (map fst l).
Proof.
  induction l as [|e l IH]; simpl; auto.
  destruct l; simpl in *; tauto.
Qed.

Lemma NoDup_removelast l :
  NoDup (map fst l) -> NoDup (map fst (removelast l)).
Proof.
  induction l as [|e l IH]; simpl; auto.
  intros Hnd. inversion Hnd as [|? ? He Hnd']; subst.
  destruct l as [|e' l]; [constructor|].
  change (NoDup (fst e :: map fst (removelast (e' :: l)))).
  constructor; auto. intros Hin. now apply In_removelast_keys in Hin.
Qed.

Lemma lookup_removelast l k v :
  lru.lookup k (removelast l) = Some v -> lru.lookup k l = Some v.
Proof.
  induction l as [|[k0 v0] l IH]; simpl; auto.
  destruct l as [|e' l]; [discriminate|].
  change (removelast ((k0, v0) :: e' :: l))
    with ((k0, v0) :: removelast (e' :: l)).
  cbn [lru.lookup]. destruct (String.eqb k0 k); auto.
Qed.

Lemma oldest_In l e : lru.oldest l = Some e -> In e l.
Proof.
  induction l as [|e0 l IH]; simpl; [discriminate|].
  destruct l; [intros [= ->]|]; auto.
Qed.

(** Without duplicate keys, dropping the last entry removes exactly the
    oldest key and keeps every other lookup. *)
Lemma lookup_removelast_oldest l ko vo k :
  NoDup (map fst l) -> lru.oldest l = Some (ko, vo) ->
  lru.lookup k (removelast l) =
  if String.eqb ko k then None else lru.lookup k l.
Proof.
  induction l as [|[k0 v0] l IH]; simpl; [discriminate|].
  intros Hnd Ho. inversion Hnd as [|? ? Hk0 Hnd']; subst.
  destruct l as [|e' l].
  - injection Ho as -> ->. simpl. now destruct (String.eqb ko k).
  - change (removelast ((k0, v0) :: e' :: l))
      with ((k0, v0) :: removelast (e' :: l)).
    cbn [lru.lookup].
    destruct (String.eqb_spec k0 k) as [->|Hne].
    + destruct (String.eqb_spec ko k) as [->|]; auto.
      exfalso. apply Hk0. apply oldest_In in Ho.
      now apply (in_map fst) in Ho.
    + now apply IH.
Qed.

Lemma length_removelast_cons (e : string * V) l :
  List.length (removelast (e :: l)) = List.length l.
Proof.
  revert e. induction l as [|e' l IH]; intros e; auto.
  change (removelast (e :: e' :: l)) with (e :: removelast (e' :: l)).
  cbn [List.length]. now rewrite IH.
Qed.

End lru_facts.

(** ** Facts about the heap *)

Lemma length_store p f h : List.length (store p f h) = List.length h.
Proof.
  revert p. induction h as [|m h IH]; intros [|p]; simpl; auto.
Qed.

Lemma deref_store_eq p f h :
  (p < List.length h)%nat -> deref (store p f h) p = f (deref h p).
Proof.
  unfold deref. revert p. induction h as [|m h IH]; intros [|p]; simpl;
    try lia; auto.
  intros H. apply IH. lia.
Qed.

Lemma deref_store_ne p q f h : q <> p -> deref (store p f h) q = deref h q.
Proof.
  unfold deref. revert p q. induction h as [|m h IH]; intros [|p] [|q] H;
    simpl; auto; try congruence.
Qed.

Lemma deref_alloc_old h m p :
  (p < List.length h)%nat -> deref (h ++ [m]) p = deref h p.
Proof. intros H. unfold deref. now apply app_nth1. Qed.

Lemma deref_alloc_new h m : deref (h ++ [m]) (List.length h) = m.
Proof. unfold deref. now rewrite nth_middle. Qed.

(** ** The invariant, as a boolean and as a proposition *)

Lemma nodupb_spec (l : list string) : nodupb l = true <-> NoDup l.
Proof.
  induction l as [|x l IH]; simpl.
  - split; [constructor|reflexivity].
  - rewrite andb_true_iff, negb_true_iff, IH. split.
    + intros [Hx Hl]. constructor; auto. intros Hin.
      assert (E : existsb (String.eqb x) l = true).
      { apply existsb_exists. exists x. split; auto. apply String.eqb_refl. }
      congruence.
    + intros Hnd. inversion Hnd as [|? ? Hx Hl]; subst. split; auto.
      destruct (existsb (String.eqb x) l) eqn:E; auto.
      apply existsb_exists in E. destruct E as (y & Hy & E).
      apply String.eqb_eq in E. subst. contradiction.
Qed.

Lemma wf_WF (u : UnitHook) : wf u = true <-> WF u.
Proof.
  unfold wf. rewrite !andb_true_iff, nodupb_spec, forallb_forall,
    !Nat.leb_le.
  split.
  - intros [[[Hnd Hs] Hl] Hall].
    assert (A : forall k p, resident u k = Some p ->
             (p < List.length (heap u))%nat /\
             key_of (deref (heap u) p) = k /\
             handled (deref (heap u) p) = false /\
             in_range (deref (heap u) p) = true).
    { intros k p Hr. apply lookup_In in Hr. specialize (Hall _ Hr).
      simpl in Hall. rewrite !andb_true_iff, Nat.ltb_lt, String.eqb_eq,
        negb_true_iff in Hall. tauto. }
    constructor; auto; intros k p Hr; now apply A in Hr.
  - intros [Hnd Hs Hl Hp Hk Hh Hg]. split; [auto|].
    intros [k p] Hin. apply In_lookup in Hin; auto. simpl.
    rewrite !andb_true_iff, Nat.ltb_lt, String.eqb_eq, negb_true_iff.
    fold (resident u k) in Hin. repeat split; eauto.
Qed.

Lemma WF_NewUnitHook : WF NewUnitHook.
Proof. now apply wf_WF. Qed.

(** Two keys of a well-formed cache never share a record. *)
Lemma WF_ptr_inj u k k' p :
  WF u -> resident u k = Some p -> resident u k' = Some p -> k = k'.
Proof.
  intros H Hk Hk'. apply (WF_key _ H) in Hk, Hk'. congruence.
Qed.

Lemma reordered_refl u : reordered u u.
Proof. constructor; auto. Qed.

Lemma reordered_WF u u1 : reordered u u1 -> WF u -> WF u1.
Proof.
  intros [Hh Hl Hr Hs Hn Hk] [Hnd Hsz Hlen Hp Hkey Hun Hrg].
  constructor; try rewrite Hs; try rewrite Hn; try rewrite Hh; auto;
    intros k p; rewrite Hr; eauto.
Qed.

(** ** The cache operations of the hook *)

Ltac case_ltb E :=
  cbv zeta;
  match goal with
  | |- context [Nat.ltb ?a ?b] => destruct (Nat.ltb a b) eqn:E
  end.

Lemma metrics_Get_miss k u :
  resident u k = None -> metrics_Get k u = (None, u).
Proof.
  unfold resident, metrics_Get, lru.Get. intros ->. now destruct u.
Qed.

(** A lookup returns the cached pointer and changes the recency order
    only. *)
Lemma metrics_Get_spec k u :
  exists u1, metrics_Get k u = (resident u k, u1) /\ reordered u u1.
Proof.
  destruct (resident u k) as [p|] eqn:E.
  - unfold metrics_Get, lru.Get. unfold resident in E. rewrite E.
    eexists. split; [reflexivity|].
    constructor; simpl; auto.
    + intros k'. unfold resident. simpl.
      destruct (String.eqb_spec k k') as [<-|Hne]; auto.
      apply lookup_delete_ne. congruence.
    + now rewrite (length_delete _ _ _ E).
    + intros Hnd. constructor; [|now apply NoDup_delete].
      apply lookup_None. now apply lookup_delete_eq.
  - exists u. rewrite metrics_Get_miss by assumption.
    split; auto using reordered_refl.
Qed.

Lemma evicted_heap e u : heap (evicted e u) = heap u.
Proof.
  destruct e as [[k p]|]; simpl; auto.
  unfold onEvict. now destruct (handled _).
Qed.

Lemma evicted_metrics e u : metrics (evicted e u) = metrics u.
Proof.
  destruct e as [[k p]|]; simpl; auto.
  unfold onEvict. now destruct (handled _).
Qed.

Lemma evicted_logger e u :
  logger (evicted e u) =
  logger u ++
  match e with
  | Some (k, p) =>
      if handled (deref (heap u) p) then [] else [(k, deref (heap u) p)]
  | None => []
  end.
Proof.
  destruct e as [[k p]|]; simpl; [|now rewrite app_nil_r].
  unfold onEvict. destruct (handled _); simpl; auto using app_nil_r.
Qed.

Lemma metrics_Add_heap k p u : heap (metrics_Add k p u) = heap u.
Proof.
  unfold metrics_Add. destruct (lru.Add _ _ _). now rewrite evicted_heap.
Qed.

Lemma metrics_Add_size k p u :
  lru.size (metrics (metrics_Add k p u)) = lru.size (metrics u).
Proof.
  unfold metrics_Add, lru.Add.
  destruct (lru.lookup k (lru.items (metrics u))). 2: case_ltb E.
  all: now rewrite evicted_metrics.
Qed.

Lemma metrics_Add_resident_eq k p u :
  (1 <= lru.size (metrics u))%nat -> resident (metrics_Add k p u) k = Some p.
Proof.
  intros Hs. unfold resident, metrics_Add, lru.Add.
  destruct (lru.lookup k (lru.items (metrics u))); [|case_ltb E];
    rewrite evicted_metrics; simpl; try now rewrite String.eqb_refl.
  apply Nat.ltb_lt in E. simpl in E.
  destruct (lru.items (metrics u)) as [|e l]; simpl in *; [lia|].
  now rewrite String.eqb_refl.
Qed.

Lemma metrics_Add_resident_ne k p u k' p' :
  k' <> k -> resident (metrics_Add k p u) k' = Some p' ->
  resident u k' = Some p'.
Proof.
  intros Hne. unfold resident, metrics_Add, lru.Add.
  destruct (lru.lookup k (lru.items (metrics u))); [|case_ltb E];
    rewrite evicted_metrics; cbn [metrics lru.items].
  - cbn [lru.lookup]. destruct (String.eqb_spec k k'); [congruence|].
    now rewrite lookup_delete_ne.
  - intros H. apply lookup_removelast in H. cbn [lru.lookup] in H.
    destruct (String.eqb_spec k k'); congruence.
  - cbn [lru.lookup]. destruct (String.eqb_spec k k'); congruence.
Qed.

Lemma metrics_Add_NoDup k p u :
  NoDup (map fst (lru.items (metrics u))) ->
  NoDup (map fst (lru.items (metrics (metrics_Add k p u)))).
Proof.
  intros Hnd. unfold metrics_Add, lru.Add.
  destruct (lru.lookup k (lru.items (metrics u))) eqn:El; [|case_ltb E];
    rewrite evicted_metrics; cbn [metrics lru.items].
  - constructor; [|now apply NoDup_delete].
    apply lookup_None. now apply lookup_delete_eq.
  - apply NoDup_removelast. constructor; auto. now apply lookup_None.
  - constructor; auto. now apply lookup_None.
Qed.

Lemma metrics_Add_len k p u :
  (List.length (lru.items (metrics u)) <= lru.size (metrics u))%nat ->
  (List.length (lru.items (metrics (metrics_Add k p u)))
   <= lru.size (metrics u))%nat.
Proof.
  intros Hl. unfold metrics_Add, lru.Add.
  destruct (lru.lookup k (lru.items (metrics u))) eqn:El; [|case_ltb E];
    rewrite evicted_metrics; cbn [metrics lru.items].
  - cbn [List.length]. now rewrite (length_delete _ _ _ El).
  - now rewrite length_removelast_cons.
  - now apply Nat.ltb_ge in E.
Qed.

(** [Add] on a resident key, or below capacity, evicts nothing. *)
Lemma metrics_Add_quiet k p u :
  (resident u k <> None \/
   (List.length (lru.items (metrics u)) < lru.size (metrics u))%nat) ->
  logger (metrics_Add k p u) = logger u /\
  forall k', k' <> k -> resident (metrics_Add k p u) k' = resident u k'.
Proof.
  intros H. unfold resident in *. unfold metrics_Add, lru.Add.
  destruct (lru.lookup k (lru.items (metrics u))) eqn:El.
  - cbn. split; auto. intros k' Hne.
    destruct (String.eqb_spec k k'); [congruence|].
    now apply lookup_delete_ne.
  - destruct H as [H|H]; [congruence|].
    case_ltb E.
    + apply Nat.ltb_lt in E. simpl in E. lia.
    + cbn. split; auto. intros k' Hne.
      destruct (String.eqb_spec k k'); congruence.
Qed.

(** [Add] of a new key to a full cache evicts the oldest entry and passes
    it to the callback. *)
Lemma metrics_Add_full k p u ko po :
  NoDup (map fst (lru.items (metrics u))) ->
  resident u k = None ->
  List.length (lru.items (metrics u)) = lru.size (metrics u) ->
  lru.oldest (lru.items (metrics u)) = Some (ko, po) ->
  logger (metrics_Add k p u) =
    logger u ++ (if handled (deref (heap u) po) then []
                 else [(ko, deref (heap u) po)]) /\
  resident (metrics_Add k p u) ko = None /\
  forall k', k' <> k -> k' <> ko ->
             resident (metrics_Add k p u) k' = resident u k'.
Proof.
  intros Hnd Hk Hfull Ho. unfold resident in *. unfold metrics_Add, lru.Add.
  rewrite Hk.
  assert (Hne : lru.items (metrics u) <> []).
  { intros E. rewrite E in Ho. discriminate. }
  assert (Ho' : lru.oldest ((k, p) :: lru.items (metrics u)) = Some (ko, po)).
  { simpl. destruct (lru.items (metrics u)); congruence. }
  assert (Hnd' : NoDup (map fst ((k, p) :: lru.items (metrics u)))).
  { constructor; auto. now apply lookup_None. }
  assert (Hkko : k <> ko).
  { intros ->. apply oldest_In in Ho. apply (in_map fst) in Ho.
    apply lookup_None in Hk. contradiction. }
  case_ltb E.
  2:{ apply Nat.ltb_ge in E. simpl in E. lia. }
  rewrite Ho'. rewrite evicted_logger, evicted_metrics.
  cbn [metrics heap logger lru.items].
  split; [reflexivity|]. split.
  - rewrite (lookup_removelast_oldest _ ko po ko Hnd' Ho').
    now rewrite String.eqb_refl.
  - intros k' H1 H2.
    rewrite (lookup_removelast_oldest _ ko po k' Hnd' Ho').
    destruct (String.eqb_spec ko k'); [congruence|].
    cbn [lru.lookup]. destruct (String.eqb_spec k k'); congruence.
Qed.

Lemma metrics_Remove_heap k u : heap (metrics_Remove k u) = heap u.
Proof.
  unfold metrics_Remove. destruct (lru.Remove _ _). now rewrite evicted_heap.
Qed.

Lemma metrics_Remove_size k u :
  lru.size (metrics (metrics_Remove k u)) = lru.size (metrics u).
Proof.
  unfold metrics_Remove, lru.Remove.
  destruct (lru.lookup k (lru.items (metrics u))); now rewrite evicted_metrics.
Qed.

Lemma metrics_Remove_resident_ne k u k' :
  k' <> k -> resident (metrics_Remove k u) k' = resident u k'.
Proof.
  intros Hne. unfold resident, metrics_Remove, lru.Remove.
  destruct (lru.lookup k (lru.items (metrics u)));
    rewrite evicted_metrics; simpl; auto.
  now apply lookup_delete_ne.
Qed.

Lemma metrics_Remove_resident_eq k u :
  NoDup (map fst (lru.items (metrics u))) ->
  resident (metrics_Remove k u) k = None.
Proof.
  intros Hnd. unfold resident, metrics_Remove, lru.Remove.
  destruct (lru.lookup k (lru.items (metrics u))) eqn:E;
    rewrite evicted_metrics; simpl; auto.
  now apply lookup_delete_eq.
Qed.

Lemma metrics_Remove_NoDup k u :
  NoDup (map fst (lru.items (metrics u))) ->
  NoDup (map fst (lru.items (metrics (metrics_Remove k u)))).
Proof.
  intros Hnd. unfold metrics_Remove, lru.Remove.
  destruct (lru.lookup k (lru.items (metrics u))) eqn:E;
    rewrite evicted_metrics; simpl; auto.
  now apply NoDup_delete.
Qed.

Lemma metrics_Remove_len k u :
  (List.length (lru.items (metrics (metrics_Remove k u)))
   <= List.length (lru.items (metrics u)))%nat.
Proof.
  unfold metrics_Remove, lru.Remove.
  destruct (lru.lookup k (lru.items (metrics u))) eqn:E;
    rewrite evicted_metrics; simpl; auto.
  rewrite <- (length_delete _ _ _ E). lia.
Qed.

Lemma metrics_Remove_logger k u :
  logger (metrics_Remove k u) =
  logger u ++
  match resident u k with
  | Some p =>
      if handled (deref (heap u) p) then [] else [(k, deref (heap u) p)]
  | None => []
  end.
Proof.
  unfold resident, metrics_Remove, lru.Remove.
  destruct (lru.lookup k (lru.items (metrics u))); now rewrite evicted_logger.
Qed.

(** ** Preservation of the invariant *)

Lemma uint64_range (z : Z) : 0 <= uint64 z < 2 ^ 64.
Proof. unfold uint64. apply Z.mod_pos_bound. reflexivity. Qed.

Lemma uint64_small (z : Z) : 0 <= z < 2 ^ 64 -> uint64 z = z.
Proof. unfold uint64. apply Z.mod_small. Qed.

Lemma in_range_iff (m : UnitMetrics) :
  in_range m = true <->
  0 <= TotalChunks m < 2 ^ 64 /\ 0 <= TotalBytes m < 2 ^ 64.
Proof.
  unfold in_range. rewrite !andb_true_iff, !Z.leb_le, !Z.ltb_lt. tauto.
Qed.

Lemma benign_setEndTime e : benign (setEndTime e).
Proof. now intros m. Qed.

Lemma benign_countChunk c : benign (countChunk c).
Proof.
  intros m. repeat split; auto. intros _. apply in_range_iff.
  cbn [countChunk TotalChunks TotalBytes]. split; apply uint64_range.
Qed.

Lemma benign_appendError e : benign (appendError e).
Proof. now intros m. Qed.

Lemma benign_useJobMetrics s : benign (useJobMetrics s).
Proof. now intros m. Qed.

Create HintDb hook.

#[local] Hint Resolve benign_setEndTime benign_countChunk benign_appendError
  benign_useJobMetrics : hook.

Lemma deref_update p f u q :
  deref (heap (update p f u)) q =
  if (Nat.eqb q p && (p <? List.length (heap u))%nat)%bool
  then f (deref (heap u) p) else deref (heap u) q.
Proof.
  unfold update. cbn [heap].
  destruct (Nat.eqb_spec q p) as [->|Hne]; simpl.
  - destruct (Nat.ltb_spec p (List.length (heap u))) as [Hlt|Hge].
    + now apply deref_store_eq.
    + unfold deref. rewrite !nth_overflow; auto.
      now rewrite length_store.
  - now apply deref_store_ne.
Qed.

Lemma WF_update p f u : benign f -> WF u -> WF (update p f u).
Proof.
  intros Hf [Hnd Hsz Hlen Hp Hkey Hun Hrg].
  constructor; auto.
  - intros k q Hr. cbn [update heap]. rewrite length_store. eauto.
  - intros k q Hr. rewrite deref_update.
    destruct (_ && _)%bool eqn:E; [|eauto].
    apply andb_true_iff in E. destruct E as [E _].
    apply Nat.eqb_eq in E. subst q. unfold key_of.
    destruct (Hf (deref (heap u) p)) as (-> & -> & _).
    apply (Hkey _ _ Hr).
  - intros k q Hr. rewrite deref_update.
    destruct (_ && _)%bool eqn:E; [|eauto].
    apply andb_true_iff in E. destruct E as [E _].
    apply Nat.eqb_eq in E. subst q.
    destruct (Hf (deref (heap u) p)) as (_ & _ & -> & _).
    apply (Hun _ _ Hr).
  - intros k q Hr. rewrite deref_update.
    destruct (_ && _)%bool eqn:E; [|eauto].
    apply andb_true_iff in E. destruct E as [E _].
    apply Nat.eqb_eq in E. subst q.
    destruct (Hf (deref (heap u) p)) as (_ & _ & _ & Hin).
    apply Hin, (Hrg _ _ Hr).
Qed.

Lemma WF_alloc m u : WF u -> WF (snd (alloc m u)).
Proof.
  intros [Hnd Hsz Hlen Hp Hkey Hun Hrg].
  constructor; auto; cbn [alloc snd heap]; intros k q Hr.
  - rewrite length_app. simpl. specialize (Hp _ _ Hr). lia.
  - rewrite deref_alloc_old; eauto.
  - rewrite deref_alloc_old; eauto.
  - rewrite deref_alloc_old; eauto.
Qed.

Lemma WF_metrics_Add k p u :
  WF u -> (p < List.length (heap u))%nat ->
  key_of (deref (heap u) p) = k -> handled (deref (heap u) p) = false ->
  in_range (deref (heap u) p) = true ->
  WF (metrics_Add k p u).
Proof.
  intros [Hnd Hsz Hlen Hp Hkey Hun Hrg] Hlt Hk Hh Hin.
  assert (A : forall k' q, resident (metrics_Add k p u) k' = Some q ->
            (k' = k /\ q = p) \/ resident u k' = Some q).
  { intros k' q Hr. destruct (string_dec k' k) as [->|Hne].
    - left. rewrite metrics_Add_resident_eq in Hr by assumption.
      split; congruence.
    - right. eapply metrics_Add_resident_ne; eauto. }
  constructor;
    try (intros k' q Hr; rewrite metrics_Add_heap;
         destruct (A _ _ Hr) as [[-> ->]|Hr']; now eauto).
  - now apply metrics_Add_NoDup.
  - now rewrite metrics_Add_size.
  - rewrite metrics_Add_size. now apply metrics_Add_len.
Qed.

Lemma metrics_Remove_resident k u k' q :
  NoDup (map fst (lru.items (metrics u))) ->
  resident (metrics_Remove k u) k' = Some q ->
  k' <> k /\ resident u k' = Some q.
Proof.
  intros Hnd Hr. destruct (string_dec k' k) as [->|Hne].
  - rewrite metrics_Remove_resident_eq in Hr by assumption. discriminate.
  - rewrite metrics_Remove_resident_ne in Hr by assumption. auto.
Qed.

(** Marking a resident record handled and removing its key, the two steps
    of the drain, keep the invariant. *)
Lemma WF_drain k p u :
  WF u -> resident u k = Some p ->
  WF (metrics_Remove k (update p setHandled u)).
Proof.
  intros H Hk. pose proof H as [Hnd Hsz Hlen Hp Hkey Hun Hrg].
  assert (A : forall k' q,
            resident (metrics_Remove k (update p setHandled u)) k' = Some q ->
            resident u k' = Some q /\
            deref (heap (metrics_Remove k (update p setHandled u))) q =
            deref (heap u) q).
  { intros k' q Hr. apply metrics_Remove_resident in Hr; auto.
    destruct Hr as [Hne Hr]. split; auto.
    rewrite metrics_Remove_heap. cbn [update heap]. apply deref_store_ne.
    intros ->. apply Hne. apply (WF_ptr_inj u k' k p H Hr Hk). }
  constructor;
    try (intros k' q Hr; apply A in Hr; destruct Hr as [Hr ->]; now eauto).
  - now apply metrics_Remove_NoDup.
  - now rewrite metrics_Remove_size.
  - rewrite metrics_Remove_size.
    pose proof (metrics_Remove_len k (update p setHandled u)).
    cbn [update metrics] in *. lia.
  - intros k' q Hr. rewrite metrics_Remove_heap. cbn [update heap].
    rewrite length_store. apply A in Hr. destruct Hr as [Hr _]. eauto.
Qed.

(** Case analysis on a lookup: it returns the resident pointer and a
    reordered state. *)
Ltac lookup_at k u p u1 Hr Hro :=
  let E := fresh "E" in
  destruct (metrics_Get_spec k u) as (u1 & E & Hro);
  rewrite E; clear E;
  destruct (resident u k) as [p|] eqn:Hr.

Lemma WF_StartUnitChunking ref unit start u :
  WF u -> WF (StartUnitChunking ref unit start u).
Proof.
  intros H. unfold StartUnitChunking. cbn [alloc].
  apply (WF_metrics_Add _ _ (snd (alloc _ u))).
  - now apply WF_alloc.
  - cbn. rewrite length_app. simpl. lia.
  - cbn [alloc snd heap]. now rewrite deref_alloc_new.
  - cbn [alloc snd heap]. now rewrite deref_alloc_new.
  - cbn [alloc snd heap]. now rewrite deref_alloc_new.
Qed.

Lemma WF_EndUnitChunking ref unit end_ u :
  WF u -> WF (EndUnitChunking ref unit end_ u).
Proof.
  intros H. unfold EndUnitChunking.
  lookup_at (id ref unit) u p u1 Hr Hro; auto.
  apply WF_update; auto with hook. eapply reordered_WF; eauto.
Qed.

Lemma WF_ReportChunk ref unit chunk u :
  WF u -> WF (ReportChunk ref unit chunk u).
Proof.
  intros H. unfold ReportChunk.
  lookup_at (id ref unit) u p u1 Hr Hro.
  - apply WF_update; auto with hook. eapply reordered_WF; eauto.
  - assert (H1 : WF u1) by (eapply reordered_WF; eauto).
    destruct unit as [un|]; auto.
    cbn [alloc]. apply WF_update; auto with hook.
    apply (WF_metrics_Add _ _ (snd (alloc _ u1))).
    + now apply WF_alloc.
    + cbn. rewrite length_app. simpl. lia.
    + cbn [alloc snd heap]. now rewrite deref_alloc_new.
    + cbn [alloc snd heap]. now rewrite deref_alloc_new.
    + cbn [alloc snd heap]. now rewrite deref_alloc_new.
Qed.

Lemma WF_ReportError_nil ref err u : WF u -> WF (ReportError_nil ref err u).
Proof.
  intros H. unfold ReportError_nil.
  lookup_at (id ref None) u p u1 Hr Hro.
  - apply WF_update; auto with hook. eapply reordered_WF; eauto.
  - eapply reordered_WF; eauto.
Qed.

Lemma WF_ReportError ref err u : WF u -> WF (ReportError ref err u).
Proof.
  intros H. unfold ReportError.
  pose proof (WF_ReportError_nil ref err u H) as H1.
  destruct (errors_As_ChunkError err) as [cu|]; auto.
  lookup_at (id ref cu) (ReportError_nil ref err u) p u2 Hr Hro; auto.
  apply WF_update; auto with hook. eapply reordered_WF; eauto.
Qed.

Lemma WF_Finish_body ref prefix u k : WF u -> WF (Finish_body ref prefix u k).
Proof.
  intros H. unfold Finish_body.
  destruct (negb _); auto.
  lookup_at k u p u1 Hr Hro; auto.
  assert (H1 : WF u1) by (eapply reordered_WF; eauto).
  destruct (Unit _); auto.
  apply WF_update; auto with hook.
Qed.

Lemma WF_Finish ref u : WF u -> WF (Finish ref u).
Proof.
  unfold Finish. generalize (lru.Keys (metrics u)) as ids.
  intros ids. revert u.
  induction ids as [|k ids IH]; intros u H; simpl; auto.
  apply IH. now apply WF_Finish_body.
Qed.

Lemma WF_UnitMetrics_body acc k :
  WF (snd acc) -> WF (snd (UnitMetrics_body acc k)).
Proof.
  destruct acc as [output u]. cbn [snd]. intros H. unfold UnitMetrics_body.
  lookup_at k u p u1 Hr Hro; auto.
  assert (H1 : WF u1) by (eapply reordered_WF; eauto).
  destruct (IsFinished _); auto.
  cbn [snd]. apply WF_drain; auto. now rewrite (ro_resident _ _ Hro).
Qed.

Lemma WF_UnitMetrics_loop ids acc :
  WF (snd acc) -> WF (snd (fold_left UnitMetrics_body ids acc)).
Proof.
  revert acc. induction ids as [|k ids IH]; intros acc H; simpl; auto.
  apply IH. now apply WF_UnitMetrics_body.
Qed.

Lemma WF_UnitMetrics u : WF u -> WF (snd (UnitMetrics_ u)).
Proof. intros H. now apply WF_UnitMetrics_loop. Qed.

Lemma WF_call c u : WF u -> WF (call c u).
Proof.
  destruct c; simpl;
    auto using WF_StartUnitChunking, WF_EndUnitChunking, WF_ReportChunk,
      WF_ReportError, WF_Finish, WF_UnitMetrics.
Qed.

Lemma WF_run cs u : WF u -> WF (run cs u).
Proof.
  unfold run. revert u. induction cs as [|c cs IH]; intros u H; simpl; auto.
  apply IH. now apply WF_call.
Qed.

(** Every state reached from a new hook satisfies the invariant. *)
Lemma wf_run cs u : wf u = true -> wf (run cs u) = true.
Proof. rewrite !wf_WF. apply WF_run. Qed.

Lemma wf_reachable cs : wf (run cs NewUnitHook) = true.
Proof. now apply wf_run. Qed.

(** ** What each method does to the entries *)

Lemma modify_miss kk f u : resident u kk = None -> modify kk f u = u.
Proof. intros H. unfold modify. now rewrite metrics_Get_miss. Qed.

Lemma modify_resident kk f u k : resident (modify kk f u) k = resident u k.
Proof.
  unfold modify. lookup_at kk u p u1 Hr Hro; auto.
  apply (ro_resident _ _ Hro).
Qed.

Lemma modify_logger kk f u : logger (modify kk f u) = logger u.
Proof.
  unfold modify. lookup_at kk u p u1 Hr Hro; auto.
  apply (ro_logger _ _ Hro).
Qed.

Lemma WF_modify kk f u : benign f -> WF u -> WF (modify kk f u).
Proof.
  intros Hf H. unfold modify. lookup_at kk u p u1 Hr Hro; auto.
  apply WF_update; auto. eapply reordered_WF; eauto.
Qed.

(** In a well-formed state a write through the pointer of one key is seen
    under that key only. *)
Lemma modify_entry kk f u k :
  WF u ->
  entry (modify kk f u) k =
  option_map (fun m => if String.eqb k kk then f m else m) (entry u k).
Proof.
  intros H. unfold entry. rewrite modify_resident.
  destruct (resident u k) as [q|] eqn:Hq; simpl; auto. f_equal.
  unfold modify. lookup_at kk u p u1 Hr Hro.
  - rewrite deref_update, (ro_heap _ _ Hro).
    pose proof (WF_ptr _ H _ _ Hr) as Hlt.
    apply Nat.ltb_lt in Hlt. rewrite Hlt, andb_true_r.
    destruct (Nat.eqb_spec q p) as [->|Hne].
    + rewrite (WF_ptr_inj _ _ _ _ H Hq Hr). now rewrite String.eqb_refl.
    + destruct (String.eqb_spec k kk) as [->|]; auto. congruence.
  - destruct (String.eqb_spec k kk) as [->|]; auto. congruence.
Qed.

Lemma update_resident p f u k : resident (update p f u) k = resident u k.
Proof. reflexivity. Qed.

Lemma EndUnitChunking_modify ref unit end_ u :
  EndUnitChunking ref unit end_ u =
  modify (id ref unit) (setEndTime (Some end_)) u.
Proof. reflexivity. Qed.

Lemma ReportChunk_hit ref unit chunk u :
  resident u (id ref unit) <> None ->
  ReportChunk ref unit chunk u = modify (id ref unit) (countChunk chunk) u.
Proof.
  intros H. unfold ReportChunk, modify.
  lookup_at (id ref unit) u p u1 Hr Hro; congruence.
Qed.

Lemma ReportChunk_evicted ref un chunk u :
  resident u (id ref (Some un)) = None ->
  ReportChunk ref (Some un) chunk u = u.
Proof. intros H. unfold ReportChunk. now rewrite metrics_Get_miss. Qed.

Lemma ReportChunk_synthetic ref chunk u :
  resident u (id ref None) = None ->
  ReportChunk ref None chunk u =
  update (List.length (heap u)) (countChunk chunk)
    (metrics_Add (id ref None) (List.length (heap u))
       (snd (alloc (syntheticMetrics ref) u))).
Proof. intros H. unfold ReportChunk. now rewrite metrics_Get_miss. Qed.

Lemma ReportError_nil_modify ref err u :
  ReportError_nil ref err u = modify (id ref None) (appendError err) u.
Proof.
  unfold ReportError_nil, modify.
  destruct (resident u (id ref None)) as [q|] eqn:E0.
  - destruct (metrics_Get_spec (id ref None) u) as (u1 & E & _).
    now rewrite E, E0.
  - now rewrite metrics_Get_miss.
Qed.

Lemma ReportError_modify ref err u :
  ReportError ref err u =
  match errors_As_ChunkError err with
  | None => modify (id ref None) (appendError err) u
  | Some chunkErr_Unit =>
      modify (id ref chunkErr_Unit) (appendError err)
        (modify (id ref None) (appendError err) u)
  end.
Proof.
  unfold ReportError. rewrite ReportError_nil_modify.
  now destruct (errors_As_ChunkError err).
Qed.

(** The errors that [ReportError] files under a key. *)
Lemma ReportError_entry ref err u k :
  WF u ->
  entry (ReportError ref err u) k =
  option_map (addErrors (reportedUnder ref err k)) (entry u k).
Proof.
  intros H. unfold reportedUnder. rewrite ReportError_modify.
  destruct (errors_As_ChunkError err) as [cu|].
  - rewrite modify_entry by auto using WF_modify with hook.
    rewrite modify_entry by assumption.
    destruct (entry u k) as [m|]; simpl; auto. f_equal.
    destruct (String.eqb k (id ref None)), (String.eqb k (id ref cu));
      destruct m; unfold appendError, addErrors; simpl; f_equal;
      now rewrite <- ?app_assoc, ?app_nil_r.
  - rewrite modify_entry by assumption.
    destruct (entry u k) as [m|]; simpl; auto. f_equal.
    destruct (String.eqb k (id ref None));
      destruct m; unfold appendError, addErrors; simpl; f_equal;
      now rewrite ?app_nil_r.
Qed.

Lemma ReportError_resident ref err u k :
  resident (ReportError ref err u) k = resident u k.
Proof.
  rewrite ReportError_modify.
  destruct (errors_As_ChunkError err); now rewrite !modify_resident.
Qed.

Lemma ReportError_logger ref err u : logger (ReportError ref err u) = logger u.
Proof.
  rewrite ReportError_modify.
  destruct (errors_As_ChunkError err); now rewrite !modify_logger.
Qed.

(** [StartUnitChunking] files a fresh record under its key... *)
Lemma StartUnitChunking_entry_eq ref unit start u :
  WF u ->
  entry (StartUnitChunking ref unit start u) (id ref unit) =
  Some (startedMetrics ref unit start).
Proof.
  intros H. unfold entry, StartUnitChunking. cbn [alloc].
  rewrite metrics_Add_resident_eq by apply (WF_size _ H).
  rewrite metrics_Add_heap. cbn [heap option_map].
  now rewrite deref_alloc_new.
Qed.

(** ... and leaves the records under the other keys as they are, when it
    does not evict them. *)
Lemma StartUnitChunking_entry_ne ref unit start u k m :
  WF u -> k <> id ref unit ->
  entry (StartUnitChunking ref unit start u) k = Some m ->
  entry u k = Some m.
Proof.
  intros H Hne. unfold entry, StartUnitChunking. cbn [alloc].
  destruct (resident (metrics_Add _ _ _) k) as [q|] eqn:Hq; [|discriminate].
  apply metrics_Add_resident_ne in Hq; auto.
  change (resident u k = Some q) in Hq. rewrite Hq.
  rewrite metrics_Add_heap. cbn [heap option_map].
  rewrite deref_alloc_old; auto. apply (WF_ptr _ H _ _ Hq).
Qed.

Lemma ReportChunk_synthetic_entry_eq ref chunk u :
  WF u -> resident u (id ref None) = None ->
  entry (ReportChunk ref None chunk u) (id ref None) =
  Some (countChunk chunk (syntheticMetrics ref)).
Proof.
  intros H Hr. rewrite ReportChunk_synthetic by assumption.
  unfold entry. rewrite update_resident. cbn [update heap alloc snd].
  rewrite metrics_Add_resident_eq by apply (WF_size _ H).
  rewrite metrics_Add_heap. cbn [heap option_map].
  rewrite deref_store_eq by (rewrite length_app; simpl; lia).
  now rewrite deref_alloc_new.
Qed.

Lemma ReportChunk_synthetic_entry_ne ref chunk u k m :
  WF u -> resident u (id ref None) = None -> k <> id ref None ->
  entry (ReportChunk ref None chunk u) k = Some m ->
  entry u k = Some m.
Proof.
  intros H Hr Hne. rewrite ReportChunk_synthetic by assumption.
  unfold entry. rewrite update_resident. cbn [update heap alloc snd].
  destruct (resident (metrics_Add _ _ _) k) as [q|] eqn:Hq; [|discriminate].
  apply metrics_Add_resident_ne in Hq; auto.
  change (resident u k = Some q) in Hq. rewrite Hq.
  rewrite metrics_Add_heap. cbn [heap option_map].
  pose proof (WF_ptr _ H _ _ Hq) as Hlt.
  rewrite deref_store_ne by lia.
  rewrite deref_alloc_old; auto.
Qed.

(** ** The two loops over the keys *)

Lemma existsb_eqb_In (k : string) (ids : list string) :
  existsb (String.eqb k) ids = true <-> In k ids.
Proof.
  rewrite existsb_exists. split.
  - intros (x & Hx & E). apply String.eqb_eq in E. now subst.
  - intros H. exists k. split; auto. apply String.eqb_refl.
Qed.

Lemma flat_map_agree {A B : Type} (f g : A -> list B) (l : list A) :
  (forall a, In a l -> f a = g a) -> flat_map f l = flat_map g l.
Proof.
  induction l as [|a l IH]; intros H; simpl; auto.
  rewrite H, IH; auto with datatypes.
Qed.

Lemma resident_Keys u k p :
  resident u k = Some p -> In k (lru.Keys (metrics u)).
Proof.
  intros H. unfold lru.Keys. rewrite <- in_rev.
  apply lookup_In in H. now apply (in_map fst) in H.
Qed.

Lemma NoDup_Keys u : WF u -> NoDup (lru.Keys (metrics u)).
Proof. intros H. unfold lru.Keys. apply NoDup_rev, (WF_keys _ H). Qed.

Lemma entry_reordered u u1 k : reordered u u1 -> entry u1 k = entry u k.
Proof.
  intros H. unfold entry. now rewrite (ro_resident _ _ H), (ro_heap _ _ H).
Qed.

Lemma Finish_body_resident ref prefix u k0 k :
  resident (Finish_body ref prefix u k0) k = resident u k.
Proof.
  unfold Finish_body. destruct (negb _); auto.
  lookup_at k0 u p u1 Hr Hro; auto.
  destruct (Unit _); rewrite ?update_resident; apply (ro_resident _ _ Hro).
Qed.

Lemma Finish_body_logger ref prefix u k0 :
  logger (Finish_body ref prefix u k0) = logger u.
Proof.
  unfold Finish_body. destruct (negb _); auto.
  lookup_at k0 u p u1 Hr Hro; auto.
  destruct (Unit _); apply (ro_logger _ _ Hro).
Qed.

Lemma Finish_body_entry ref u k0 k :
  WF u ->
  entry (Finish_body ref (id ref None) u k0) k =
  option_map (fun m => if String.eqb k k0 then finishMetrics ref k m else m)
             (entry u k).
Proof.
  intros H. unfold Finish_body.
  destruct (HasPrefix k0 (id ref None)) eqn:Hpre; cbn [negb].
  - destruct (metrics_Get_spec k0 u) as (u1 & E & Hro).
    destruct (resident u k0) as [p|] eqn:Hr.
    + pose proof (modify_entry k0 (useJobMetrics (Snapshot ref)) u k H) as M.
      unfold modify in M. rewrite E in *.
      rewrite (ro_heap _ _ Hro).
      assert (Em : entry u k0 = Some (deref (heap u) p))
        by (unfold entry; now rewrite Hr).
      destruct (Unit (deref (heap u) p)) eqn:EU.
      * rewrite (entry_reordered _ _ _ Hro).
        destruct (entry u k) as [m|] eqn:Ek; simpl; auto. f_equal.
        destruct (String.eqb_spec k k0) as [->|]; auto.
        unfold finishMetrics. rewrite Hpre.
        assert (m = deref (heap u) p) by congruence. subst m. now rewrite EU.
      * cbv zeta. rewrite M.
        destruct (entry u k) as [m|] eqn:Ek; simpl; auto. f_equal.
        destruct (String.eqb_spec k k0) as [->|]; auto.
        unfold finishMetrics. rewrite Hpre.
        assert (m = deref (heap u) p) by congruence. subst m. now rewrite EU.
    + rewrite E.
      destruct (entry u k) as [m|] eqn:Ek; simpl; auto. f_equal.
      destruct (String.eqb_spec k k0) as [->|]; auto.
      unfold entry in Ek. rewrite Hr in Ek. discriminate.
  - destruct (entry u k) as [m|] eqn:Ek; simpl; auto. f_equal.
    destruct (String.eqb_spec k k0) as [->|]; auto.
    unfold finishMetrics. now rewrite Hpre.
Qed.

Lemma finishMetrics_idem ref k m :
  finishMetrics ref k (finishMetrics ref k m) = finishMetrics ref k m.
Proof.
  unfold finishMetrics. destruct (HasPrefix _ _); auto.
  destruct (Unit m) eqn:E; [now rewrite E|].
  cbn [useJobMetrics Unit]. now rewrite E.
Qed.

Lemma Finish_loop_entry ref ids u k :
  WF u ->
  entry (fold_left (Finish_body ref (id ref None)) ids u) k =
  option_map
    (fun m => if existsb (String.eqb k) ids then finishMetrics ref k m else m)
    (entry u k).
Proof.
  revert u. induction ids as [|k0 ids IH]; intros u H; cbn [fold_left existsb].
  - now destruct (entry u k).
  - rewrite IH by now apply WF_Finish_body.
    rewrite Finish_body_entry by assumption.
    destruct (entry u k) as [m|]; simpl; auto. f_equal.
    destruct (String.eqb k k0), (existsb (String.eqb k) ids); simpl; auto.
    apply finishMetrics_idem.
Qed.

(** [Finish] rewrites exactly the resident records of the job that have no
    unit. *)
Lemma Finish_entry ref u k :
  WF u -> entry (Finish ref u) k = option_map (finishMetrics ref k) (entry u k).
Proof.
  intros H. unfold Finish. cbv zeta. rewrite Finish_loop_entry by assumption.
  destruct (entry u k) as [m|] eqn:E; simpl; auto.
  unfold entry in E. destruct (resident u k) as [p|] eqn:Hr; [|discriminate].
  apply resident_Keys in Hr. apply existsb_eqb_In in Hr. now rewrite Hr.
Qed.

Lemma Finish_resident ref u k : resident (Finish ref u) k = resident u k.
Proof.
  unfold Finish. cbv zeta. generalize (lru.Keys (metrics u)) as ids.
  intros ids. revert u. induction ids as [|k0 ids IH]; intros u; simpl; auto.
  now rewrite IH, Finish_body_resident.
Qed.

Lemma Finish_logger ref u : logger (Finish ref u) = logger u.
Proof.
  unfold Finish. cbv zeta. generalize (lru.Keys (metrics u)) as ids.
  intros ids. revert u. induction ids as [|k0 ids IH]; intros u; simpl; auto.
  now rewrite IH, Finish_body_logger.
Qed.

(** One iteration of the drain: the record of the key is copied to the
    output and, when it is finished, taken out of the cache, without a
    diagnostic; the other keys keep their records. *)
Lemma UnitMetrics_body_spec output u k0 :
  WF u ->
  fst (UnitMetrics_body (output, u) k0) = output ++ view u k0 /\
  logger (snd (UnitMetrics_body (output, u) k0)) = logger u /\
  entry (snd (UnitMetrics_body (output, u) k0)) k0 = drained (entry u k0) /\
  forall k, k <> k0 ->
            entry (snd (UnitMetrics_body (output, u) k0)) k = entry u k.
Proof.
  intros H. unfold UnitMetrics_body, view.
  destruct (metrics_Get_spec k0 u) as (u1 & E & Hro). rewrite E.
  pose proof (reordered_WF _ _ Hro H) as H1.
  destruct (resident u k0) as [p|] eqn:Hr.
  - assert (Em : entry u k0 = Some (deref (heap u) p))
      by (unfold entry; now rewrite Hr).
    assert (Hr1 : resident u1 k0 = Some p)
      by now rewrite (ro_resident _ _ Hro).
    rewrite Em, (ro_heap _ _ Hro). cbn [drained].
    destruct (IsFinished (deref (heap u) p)) eqn:Efin; cbn [fst snd].
    + split; [reflexivity|]. split; [|split].
      * rewrite metrics_Remove_logger, update_resident, Hr1.
        rewrite deref_update, Nat.eqb_refl.
        pose proof (WF_ptr _ H1 _ _ Hr1) as Hlt.
        apply Nat.ltb_lt in Hlt. rewrite Hlt. cbn.
        rewrite app_nil_r. apply (ro_logger _ _ Hro).
      * unfold entry. rewrite metrics_Remove_resident_eq; auto.
        apply (WF_keys _ H1).
      * intros k Hne. unfold entry.
        rewrite metrics_Remove_resident_ne, update_resident by assumption.
        rewrite (ro_resident _ _ Hro).
        destruct (resident u k) as [q|] eqn:Hq; simpl; auto. f_equal.
        rewrite metrics_Remove_heap. cbn [update heap].
        rewrite (ro_heap _ _ Hro). apply deref_store_ne.
        intros ->. apply Hne. apply (WF_ptr_inj u k k0 p H Hq Hr).
    + split; [reflexivity|]. split; [apply (ro_logger _ _ Hro)|].
      split; [|intros k _; now apply entry_reordered].
      now rewrite (entry_reordered _ _ _ Hro).
  - cbn [fst snd]. unfold entry. rewrite Hr. cbn.
    now rewrite app_nil_r.
Qed.

Lemma UnitMetrics_loop_spec ids output u :
  WF u -> NoDup ids ->
  fst (fold_left UnitMetrics_body ids (output, u)) =
    output ++ flat_map (view u) ids /\
  logger (snd (fold_left UnitMetrics_body ids (output, u))) = logger u /\
  forall k, entry (snd (fold_left UnitMetrics_body ids (output, u))) k =
            if existsb (String.eqb k) ids then drained (entry u k)
            else entry u k.
Proof.
  revert output u. induction ids as [|k0 ids IH]; intros output u H Hnd.
  - cbn. rewrite app_nil_r. auto.
  - inversion Hnd as [|? ? Hk0 Hnd']; subst.
    cbn [fold_left flat_map existsb].
    destruct (UnitMetrics_body_spec output u k0 H) as (Ho & Hl & He0 & Hne).
    pose proof (WF_UnitMetrics_body (output, u) k0 H) as H'.
    destruct (UnitMetrics_body (output, u) k0) as [output' u'].
    cbn [fst snd] in *. subst output'.
    destruct (IH (output ++ view u k0) u' H' Hnd') as (Io & Il & Ie).
    split; [|split].
    + rewrite Io, <- app_assoc. f_equal. f_equal.
      apply flat_map_agree. intros k Hin. unfold view.
      rewrite Hne; auto. intros ->. contradiction.
    + congruence.
    + intros k. rewrite Ie.
      destruct (String.eqb_spec k k0) as [->|Hk]; cbn [orb].
      * assert (E : existsb (String.eqb k0) ids = false).
        { destruct (existsb _ ids) eqn:E; auto.
          apply existsb_eqb_In in E. contradiction. }
        now rewrite E.
      * now rewrite Hne.
Qed.

(** The records that an output built from the cache holds for one key. *)
Lemma records_for_views u k ids :
  WF u -> NoDup ids ->
  records_for k (flat_map (view u) ids) =
  if existsb (String.eqb k) ids then view u k else [].
Proof.
  intros H. unfold records_for.
  induction ids as [|k0 ids IH]; intros Hnd; cbn [flat_map existsb]; auto.
  inversion Hnd as [|? ? Hk0 Hnd']; subst.
  rewrite filter_app, IH by assumption.
  assert (V : filter (fun m => String.eqb (key_of m) k) (view u k0) =
              if String.eqb k k0 then view u k0 else []).
  { unfold view, entry.
    destruct (resident u k0) as [p|] eqn:Hr; cbn;
      [|now destruct (String.eqb k k0)].
    rewrite (WF_key _ H _ _ Hr), (String.eqb_sym k0 k).
    now destruct (String.eqb k k0). }
  rewrite V. destruct (String.eqb_spec k k0) as [->|]; cbn [orb]; auto.
  assert (E : existsb (String.eqb k0) ids = false).
  { destruct (existsb _ ids) eqn:E; auto.
    apply existsb_eqb_In in E. contradiction. }
  rewrite E. apply app_nil_r.
Qed.

(** [UnitMetrics()] outputs the record of every resident key once, takes the
    finished ones out of the cache and emits no diagnostic. *)
Lemma UnitMetrics_spec u :
  WF u ->
  fst (UnitMetrics_ u) = flat_map (view u) (lru.Keys (metrics u)) /\
  logger (snd (UnitMetrics_ u)) = logger u /\
  (forall k, records_for k (fst (UnitMetrics_ u)) = view u k) /\
  (forall k, entry (snd (UnitMetrics_ u)) k = drained (entry u k)).
Proof.
  intros H. unfold UnitMetrics_.
  destruct (UnitMetrics_loop_spec (lru.Keys (metrics u)) [] u H
              (NoDup_Keys u H)) as (Ho & Hl & He).
  cbn [app] in Ho.
  assert (K : forall k, entry u k <> None ->
                        existsb (String.eqb k) (lru.Keys (metrics u)) = true).
  { intros k Hk. unfold entry in Hk.
    destruct (resident u k) as [p|] eqn:Hr; [|now elim Hk].
    apply existsb_eqb_In. eapply resident_Keys; eauto. }
  repeat split; auto.
  - intros k. rewrite Ho, records_for_views by auto using NoDup_Keys.
    destruct (existsb _ _) eqn:E; auto.
    unfold view. destruct (entry u k) eqn:Ek; auto.
    rewrite K in E; [discriminate|congruence].
  - intros k. rewrite He. destruct (existsb _ _) eqn:E; auto.
    destruct (entry u k) eqn:Ek; auto.
    rewrite K in E; [discriminate|congruence].
Qed.

(** ** One call, seen from one key *)

Lemma entry_None u k : entry u k = None <-> resident u k = None.
Proof. unfold entry. destruct (resident u k); simpl; split; congruence. Qed.

(** A key that is resident before and after a call holds the record that
    [effect] computes. *)
Lemma call_entry c u k m m' :
  WF u -> entry u k = Some m -> entry (call c u) k = Some m' ->
  m' = effect k c m.
Proof.
  intros H Hm Hm'.
  destruct c as [ref unit start|ref unit end_|ref unit chunk|ref err|ref|];
    cbn [call effect] in *.
  - destruct (String.eqb_spec (id ref unit) k) as [<-|Hne].
    + rewrite StartUnitChunking_entry_eq in Hm' by assumption. congruence.
    + apply StartUnitChunking_entry_ne in Hm'; auto. congruence.
  - rewrite EndUnitChunking_modify, modify_entry, Hm in Hm' by assumption.
    rewrite (String.eqb_sym k) in Hm'. simpl in Hm'. congruence.
  - destruct (resident u (id ref unit)) as [p|] eqn:Hr.
    + rewrite ReportChunk_hit, modify_entry, Hm in Hm'
        by (assumption || congruence).
      rewrite (String.eqb_sym k) in Hm'. simpl in Hm'. congruence.
    + assert (Hne : k <> id ref unit).
      { intros ->. apply entry_None in Hr. congruence. }
      destruct (String.eqb_spec (id ref unit) k); [congruence|].
      destruct unit as [un|].
      * rewrite ReportChunk_evicted in Hm' by assumption. congruence.
      * apply ReportChunk_synthetic_entry_ne in Hm'; auto. congruence.
  - rewrite ReportError_entry, Hm in Hm' by assumption.
    simpl in Hm'. congruence.
  - rewrite Finish_entry, Hm in Hm' by assumption. simpl in Hm'. congruence.
  - destruct (UnitMetrics_spec u H) as (_ & _ & _ & He).
    rewrite He, Hm in Hm'. simpl in Hm'.
    destruct (IsFinished m); congruence.
Qed.

(** Only a start, or a chunk of a source without units, makes a key
    resident. *)
Lemma call_absent c u k :
  WF u -> resident u k = None -> creates k c = false ->
  resident (call c u) k = None.
Proof.
  intros H Hk Hc.
  destruct c as [ref unit start|ref unit end_|ref unit chunk|ref err|ref|];
    cbn [call creates] in *.
  - apply String.eqb_neq in Hc.
    destruct (resident (StartUnitChunking ref unit start u) k) as [q|] eqn:Hq;
      auto.
    unfold StartUnitChunking in Hq. cbn [alloc] in Hq.
    apply metrics_Add_resident_ne in Hq; [|congruence].
    change (resident u k = Some q) in Hq. congruence.
  - now rewrite EndUnitChunking_modify, modify_resident.
  - destruct (resident u (id ref unit)) as [p|] eqn:Hr.
    + rewrite ReportChunk_hit, modify_resident by congruence. assumption.
    + destruct unit as [un|].
      * now rewrite ReportChunk_evicted.
      * apply String.eqb_neq in Hc.
        rewrite ReportChunk_synthetic, update_resident by assumption.
        match goal with
        | |- resident ?v k = None => destruct (resident v k) as [q|] eqn:Hq
        end; auto.
        apply metrics_Add_resident_ne in Hq; [|congruence].
        change (resident u k = Some q) in Hq. congruence.
  - now rewrite ReportError_resident.
  - now rewrite Finish_resident.
  - destruct (UnitMetrics_spec u H) as (_ & _ & _ & He).
    apply entry_None. rewrite He. apply entry_None in Hk. now rewrite Hk.
Qed.

Lemma run_absent cs u k :
  WF u -> resident u k = None ->
  forallb (fun c => negb (creates k c)) cs = true ->
  resident (run cs u) k = None.
Proof.
  unfold run. revert u. induction cs as [|c cs IH]; intros u H Hk Hcs; auto.
  cbn [forallb] in Hcs. apply andb_true_iff in Hcs. destruct Hcs as [Hc Hcs].
  apply negb_true_iff in Hc. cbn [fold_left].
  apply IH; auto using WF_call, call_absent.
Qed.

Lemma oldest_nonempty {V : Type} (l : list (string * V)) :
  l <> [] -> exists e, lru.oldest l = Some e.
Proof.
  induction l as [|e l IH]; [congruence|]. intros _.
  destruct l as [|e' l]; [now exists e|].
  destruct IH as [x Hx]; [discriminate|]. now exists x.
Qed.

(** An entry that [Add] takes out of a well-formed cache is the oldest one
    of a full cache, and the callback logs it. *)
Lemma metrics_Add_lost k p u k' q :
  WF u -> resident u k' = Some q ->
  resident (metrics_Add k p u) k' = None ->
  logger (metrics_Add k p u) = logger u ++ [(k', deref (heap u) q)].
Proof.
  intros H Hq Hlost.
  assert (Hne : k' <> k).
  { intros ->. rewrite metrics_Add_resident_eq in Hlost; [discriminate|].
    apply (WF_size _ H). }
  destruct (resident u k) as [p0|] eqn:Hk.
  { destruct (metrics_Add_quiet k p u) as [_ Hkeep];
      [left; congruence|].
    rewrite Hkeep in Hlost by assumption. congruence. }
  destruct (Nat.lt_ge_cases (List.length (lru.items (metrics u)))
              (lru.size (metrics u))) as [Hlt|Hge].
  { destruct (metrics_Add_quiet k p u) as [_ Hkeep]; [now right|].
    rewrite Hkeep in Hlost by assumption. congruence. }
  pose proof (WF_len _ H) as Hlen.
  destruct (oldest_nonempty (lru.items (metrics u))) as [[ko po] Ho].
  { intros E. unfold resident in Hq. rewrite E in Hq. discriminate. }
  destruct (metrics_Add_full k p u ko po (WF_keys _ H) Hk) as (Hl & _ & Hkeep);
    auto; [lia|].
  assert (Hko : resident u ko = Some po).
  { apply In_lookup; [apply (WF_keys _ H)|now apply oldest_In]. }
  destruct (string_dec k' ko) as [->|Hno].
  - assert (q = po) by congruence. subst q.
    now rewrite Hl, (WF_unhandled _ H _ _ Hko).
  - rewrite Hkeep in Hlost by assumption. congruence.
Qed.

Lemma WF_entry u k m :
  WF u -> entry u k = Some m ->
  exists p, resident u k = Some p /\ m = deref (heap u) p /\
            (p < List.length (heap u))%nat.
Proof.
  intros H Hm. unfold entry in Hm.
  destruct (resident u k) as [p|] eqn:Hr; [|discriminate].
  exists p. injection Hm as <-. repeat split. apply (WF_ptr _ H _ _ Hr).
Qed.

(** A key leaves the cache in two ways only: [UnitMetrics()] drains its
    record once it is finished, silently, or an insertion evicts it and the
    callback logs its record. *)
Lemma call_loss_accounted c u k m :
  WF u -> entry u k = Some m -> resident (call c u) k = None ->
  (c = CallUnitMetrics /\ IsFinished m = true /\
   logger (call c u) = logger u) \/
  logger (call c u) = logger u ++ [(k, m)].
Proof.
  intros H Hm Hlost.
  destruct (WF_entry u k m H Hm) as (q & Hq & -> & Hlt).
  destruct c as [ref unit start|ref unit end_|ref unit chunk|ref err|ref|];
    cbn [call] in *.
  - right. unfold StartUnitChunking in *. cbn [alloc] in *.
    match type of Hlost with
    | resident (metrics_Add ?a ?b ?v) _ = None =>
        rewrite (metrics_Add_lost a b v k q); auto;
          [|change v with (snd (alloc (startedMetrics ref unit start) u));
            now apply WF_alloc]
    end.
    cbn [heap logger]. now rewrite deref_alloc_old.
  - rewrite EndUnitChunking_modify, modify_resident in Hlost. congruence.
  - destruct (resident u (id ref unit)) as [p|] eqn:Hr.
    + rewrite ReportChunk_hit, modify_resident in Hlost by congruence.
      congruence.
    + destruct unit as [un|].
      * rewrite ReportChunk_evicted in Hlost by assumption. congruence.
      * right. rewrite ReportChunk_synthetic in * by assumption.
        rewrite update_resident in Hlost. cbn [update logger alloc snd] in *.
        match type of Hlost with
        | resident (metrics_Add ?a ?b ?v) _ = None =>
            rewrite (metrics_Add_lost a b v k q); auto;
              [|change v with (snd (alloc (syntheticMetrics ref) u));
                now apply WF_alloc]
        end.
        cbn [heap logger]. now rewrite deref_alloc_old.
  - rewrite ReportError_resident in Hlost. congruence.
  - rewrite Finish_resident in Hlost. congruence.
  - left. destruct (UnitMetrics_spec u H) as (_ & Hl & _ & He).
    apply entry_None in Hlost. rewrite He, Hm in Hlost. cbn in Hlost.
    destruct (IsFinished _) eqn:Ef; [auto|discriminate].
Qed.

(** ** The key-derivation function (C9) *)

(** C9, as amended.  The key depends on the source identifier, the job
    identifier and the unit identifier only, and determines all three,
    where the nil unit counts as the unit with the empty identifier.  The
    no-unit key of a job is a prefix of exactly the keys of that job; it
    is equal to the key of a unit, rather than a strict prefix of it,
    exactly when the identifier of the unit is empty. *)
Theorem id_key_derivation (ref ref' : JobProgressRef)
  (unit unit' : SourceUnit) :
  (id ref unit = id ref' unit' <->
   SourceID ref = SourceID ref' /\ JobID ref = JobID ref' /\
   unitID unit = unitID unit') /\
  (HasPrefix (id ref' unit') (id ref None) = true <->
   SourceID ref = SourceID ref' /\ JobID ref = JobID ref') /\
  (id ref unit = id ref None <-> unitID unit = EmptyString).
Proof.
  split; [apply id_eq_iff|]. split; [apply id_prefix_iff|].
  rewrite id_eq_iff. simpl. tauto.
Qed.

(** C9 fails as stated: the nil unit and a unit whose identifier is empty
    are different units with the same key, so that the no-unit key of the
    job is not a strict prefix of the key of that unit. *)
Lemma id_collides_on_empty_unit_id :
  let ref := mkRef 1 2 (JobProgressMetrics.mk None None []) in
  (None : SourceUnit) <> Some (mkUnit EmptyString) /\
  id ref None = id ref (Some (mkUnit EmptyString)) /\
  id ref None = "1/2/"%string.
Proof. repeat split. discriminate. Qed.

Lemma id_key_derivation_witness :
  let a := Some (mkUnit "a/b") in
  id (mkRef 7 (-3) (JobProgressMetrics.mk None None [])) a
  <> id (mkRef 7 3 (JobProgressMetrics.mk (Some 1) None [])) a.
Proof.
  intros a E.
  destruct (id_key_derivation
              (mkRef 7 (-3) (JobProgressMetrics.mk None None []))
              (mkRef 7 3 (JobProgressMetrics.mk (Some 1) None []))
              a a) as [[H _] _].
  destruct (H E) as (_ & Hj & _). discriminate Hj.
Defined.

(** ** Missing entries (C8) *)

(** C8.  A method that finds no entry to update returns the state it was
    given: [EndUnitChunking] on an absent key, [ReportChunk] for a non-nil
    unit whose key is absent, and [ReportError] when neither the no-unit key
    nor the key of the named unit is resident.  The methods have no result,
    so there is nothing through which a failure could be signalled. *)
Theorem missing_entry_is_noop (u : UnitHook) (ref : JobProgressRef) :
  (forall unit end_,
     resident u (id ref unit) = None ->
     EndUnitChunking ref unit end_ u = u) /\
  (forall un chunk,
     resident u (id ref (Some un)) = None ->
     ReportChunk ref (Some un) chunk u = u) /\
  (forall err,
     resident u (id ref None) = None ->
     (forall unit, errors_As_ChunkError err = Some unit ->
                   resident u (id ref unit) = None) ->
     ReportError ref err u = u).
Proof.
  split; [|split].
  - intros unit end_ H. rewrite EndUnitChunking_modify. now apply modify_miss.
  - intros un chunk H. now apply ReportChunk_evicted.
  - intros err H0 H1. rewrite ReportError_modify.
    destruct (errors_As_ChunkError err) as [unit|].
    + rewrite (modify_miss (id ref None)) by assumption.
      apply modify_miss. now apply H1.
    + now apply modify_miss.
Qed.

Lemma missing_entry_is_noop_witness :
  let ref := mkRef 1 2 (JobProgressMetrics.mk None None []) in
  let a := Some (mkUnit "a") in
  let b := mkUnit "b" in
  let u := StartUnitChunking ref a 10 NewUnitHook in
  EndUnitChunking ref (Some b) 20 u = u /\
  ReportChunk ref (Some b) (mkChunk [Byte.x00]) u = u /\
  ReportError ref (ChunkError (Some b) (errors_New "e")) u = u.
Proof.
  intros ref a b u.
  destruct (missing_entry_is_noop u ref) as (HE & HC & HR).
  split; [|split].
  - apply HE. reflexivity.
  - apply HC. reflexivity.
  - apply HR; [reflexivity|].
    intros unit [= <-]. reflexivity.
Defined.

(** ** Chunks of a source without units (C6) *)

(** C6.  [ReportChunk] with the nil unit, when the no-unit key of the job
    is not resident, files under that key a new record that starts at the
    start time of the job snapshot and counts the chunk: one chunk, and the
    length of its payload, converted to [uint64], in bytes. *)
Theorem ReportChunk_creates_synthetic_entry (u : UnitHook)
  (ref : JobProgressRef) (chunk : Chunk) :
  wf u = true ->
  resident u (id ref None) = None ->
  entry (ReportChunk ref None chunk u) (id ref None) =
  Some (mkUnitMetrics None ref
          (JobProgressMetrics.StartTime (Snapshot ref)) None
          1 (uint64 (Z.of_nat (List.length (Data chunk)))) [] false).
Proof.
  intros H Hr. apply wf_WF in H.
  rewrite ReportChunk_synthetic_entry_eq by assumption.
  unfold countChunk, syntheticMetrics. cbn -[uint64 Z.of_nat].
  f_equal. f_equal.
  rewrite uint64_small; [reflexivity|apply uint64_range].
Qed.

Lemma ReportChunk_creates_synthetic_entry_witness :
  let ref := mkRef 1 2 (JobProgressMetrics.mk (Some 5) None []) in
  entry (ReportChunk ref None (mkChunk [Byte.x00; Byte.x01; Byte.x02])
           NewUnitHook) "1/2/"%string =
  Some (mkUnitMetrics None ref (Some 5) None 1 3 [] false).
Proof.
  intros ref.
  apply (ReportChunk_creates_synthetic_entry NewUnitHook ref
           (mkChunk [Byte.x00; Byte.x01; Byte.x02])); reflexivity.
Defined.

(** ** Reported errors (C5, C10) *)

(** C5.  [ReportError] changes no key of the cache and, under every key,
    appends to the resident record the errors of [reportedUnder]: the error
    once under the no-unit key of the job and, when it carries a
    [ChunkError], once more under the key of the unit that the wrapper
    names.  A key that is not resident stays so: the append is skipped.
    The record under any other key is left as it is; without a
    [ChunkError] that is every key but the no-unit key. *)
Theorem ReportError_files_error (u : UnitHook) (ref : JobProgressRef)
  (err : error) (k : string) :
  wf u = true ->
  resident (ReportError ref err u) k = resident u k /\
  entry (ReportError ref err u) k =
    option_map (addErrors (reportedUnder ref err k)) (entry u k) /\
  (k = id ref None -> exists rest, reportedUnder ref err k = err :: rest) /\
  (forall unit, errors_As_ChunkError err = Some unit -> k = id ref unit ->
                In err (reportedUnder ref err k)) /\
  (k <> id ref None ->
   (forall unit, errors_As_ChunkError err = Some unit -> k <> id ref unit) ->
   entry (ReportError ref err u) k = entry u k).
Proof.
  intros H. apply wf_WF in H.
  split; [apply ReportError_resident|].
  split; [now apply ReportError_entry|].
  split; [|split].
  - intros ->. unfold reportedUnder. rewrite String.eqb_refl. simpl. eauto.
  - intros unit Has ->. unfold reportedUnder. rewrite Has, String.eqb_refl.
    apply in_or_app. right. now left.
  - intros Hne Hunit. rewrite ReportError_entry by assumption.
    assert (E : reportedUnder ref err k = []).
    { unfold reportedUnder. apply String.eqb_neq in Hne. rewrite Hne.
      destruct (errors_As_ChunkError err) as [unit|]; auto.
      specialize (Hunit unit eq_refl). apply String.eqb_neq in Hunit.
      now rewrite Hunit. }
    rewrite E. destruct (entry u k) as [m|]; auto. cbn.
    unfold addErrors. rewrite app_nil_r. now destruct m.
Qed.

Lemma ReportError_files_error_witness :
  let ref := mkRef 1 2 (JobProgressMetrics.mk None None []) in
  let a := Some (mkUnit "a") in
  let err := fmt_Errorf "scan" (ChunkError a (errors_New "boom")) in
  let u := ReportChunk ref None (mkChunk [])
             (StartUnitChunking ref a 10 NewUnitHook) in
  option_map Errors (entry (ReportError ref err u) "1/2/a"%string)
    = Some [err] /\
  option_map Errors (entry (ReportError ref err u) "1/2/"%string)
    = Some [err] /\
  entry (ReportError ref err u) "1/2/b"%string = None.
Proof.
  intros ref a err u.
  assert (W : wf u = true) by reflexivity.
  split; [|split].
  - destruct (ReportError_files_error u ref err "1/2/a"%string W)
      as (_ & E & _).
    rewrite E. reflexivity.
  - destruct (ReportError_files_error u ref err "1/2/"%string W)
      as (_ & E & _).
    rewrite E. reflexivity.
  - destruct (ReportError_files_error u ref err "1/2/b"%string W)
      as (_ & E & _).
    rewrite E. reflexivity.
Defined.

(** C10.  An error whose [ChunkError] names the nil unit is appended twice
    to the resident no-unit record of the job by one call of
    [ReportError]: the key of the named unit is the no-unit key. *)
Theorem ReportError_nil_unit_wrapper_appends_twice (u : UnitHook)
  (ref : JobProgressRef) (err : error) (m : UnitMetrics) :
  wf u = true ->
  errors_As_ChunkError err = Some None ->
  entry u (id ref None) = Some m ->
  exists m',
    entry (ReportError ref err u) (id ref None) = Some m' /\
    Errors m' = Errors m ++ [err; err] /\
    List.length (Errors m') = (List.length (Errors m) + 2)%nat.
Proof.
  intros H Has Hm. apply wf_WF in H.
  exists (addErrors [err; err] m). split; [|split].
  - rewrite ReportError_entry, Hm by assumption.
    unfold reportedUnder. rewrite Has, String.eqb_refl. reflexivity.
  - reflexivity.
  - cbn [addErrors Errors]. rewrite length_app. reflexivity.
Qed.

Lemma ReportError_nil_unit_wrapper_appends_twice_witness :
  let ref := mkRef 1 2 (JobProgressMetrics.mk None None []) in
  let err := ChunkError None (errors_New "boom") in
  let u := ReportChunk ref None (mkChunk []) NewUnitHook in
  exists m',
    entry (ReportError ref err u) (id ref None) = Some m' /\
    Errors m' = [err; err] /\
    List.length (Errors m') = 2%nat.
Proof.
  intros ref err u.
  apply (ReportError_nil_unit_wrapper_appends_twice u ref err
           (mkUnitMetrics None ref None None 1 0 [] false));
    reflexivity.
Defined.

(** ** Eviction diagnostics (C2) *)

(** C2.  The eviction callback logs a diagnostic exactly when the evicted
    record is not marked handled.  It runs on removal as on eviction by
    capacity.  A start that finds the cache full evicts the oldest entry,
    finished or not, with a diagnostic, since no resident record is marked
    handled.  [UnitMetrics()] marks each finished record handled before it
    removes it: it outputs the record, takes it out of the cache and logs
    nothing.  And whenever a key that is resident before a call is not
    resident after it, either the call is [UnitMetrics()], the record was
    finished and nothing is logged, or the call logs exactly the diagnostic
    of that record. *)
Theorem eviction_diagnostic_iff_unhandled (u : UnitHook) :
  (forall key value,
     logger (onEvict key value u) =
     logger u ++ (if handled (deref (heap u) value) then []
                  else [(key, deref (heap u) value)])) /\
  (forall key value,
     resident u key = Some value ->
     logger (metrics_Remove key u) = logger (onEvict key value u)) /\
  (wf u = true ->
   forall ref unit start ko po,
     resident u (id ref unit) = None ->
     List.length (lru.items (metrics u)) = lru.size (metrics u) ->
     lru.oldest (lru.items (metrics u)) = Some (ko, po) ->
     handled (deref (heap u) po) = false /\
     logger (StartUnitChunking ref unit start u) =
       logger u ++ [(ko, deref (heap u) po)] /\
     resident (StartUnitChunking ref unit start u) ko = None) /\
  (wf u = true ->
   logger (snd (UnitMetrics_ u)) = logger u /\
   forall k m, entry u k = Some m -> IsFinished m = true ->
               In m (fst (UnitMetrics_ u)) /\
               resident (snd (UnitMetrics_ u)) k = None) /\
  (wf u = true ->
   forall c k m, entry u k = Some m -> resident (call c u) k = None ->
     (c = CallUnitMetrics /\ IsFinished m = true /\
      logger (call c u) = logger u) \/
     logger (call c u) = logger u ++ [(k, m)]).
Proof.
  split; [|split; [|split; [|split]]];
    [| | | |intros H c k m; apply call_loss_accounted; now apply wf_WF].
  - intros key value. unfold onEvict.
    destruct (handled _); simpl; auto using app_nil_r.
  - intros key value Hr. rewrite metrics_Remove_logger, Hr.
    unfold onEvict. destruct (handled _); simpl; auto using app_nil_r.
  - intros H ref unit start ko po Hk Hfull Hold. apply wf_WF in H.
    assert (Hko : resident u ko = Some po).
    { apply In_lookup; [apply (WF_keys _ H)|now apply oldest_In]. }
    pose proof (WF_unhandled _ H _ _ Hko) as Hh.
    pose proof (WF_ptr _ H _ _ Hko) as Hlt.
    split; [assumption|].
    unfold StartUnitChunking. cbn [alloc].
    match goal with
    | |- context [metrics_Add ?k ?p ?v] =>
        destruct (metrics_Add_full k p v ko po) as (Hl & Hr & _); auto;
          try apply (WF_keys _ H)
    end.
    rewrite Hl. cbn [heap logger]. rewrite deref_alloc_old by assumption.
    rewrite Hh. auto.
  - intros H. apply wf_WF in H.
    destruct (UnitMetrics_spec u H) as (_ & Hl & Hrec & He).
    split; [assumption|]. intros k m Hm Hfin. split.
    + assert (Hin : In m (records_for k (fst (UnitMetrics_ u)))).
      { rewrite Hrec. unfold view. rewrite Hm. now left. }
      unfold records_for in Hin. now apply filter_In in Hin.
    + apply entry_None. rewrite He, Hm. simpl. now rewrite Hfin.
Qed.

Lemma eviction_diagnostic_iff_unhandled_witness :
  let ref := mkRef 1 2 (JobProgressMetrics.mk None None []) in
  let a := Some (mkUnit "a") in
  let b := Some (mkUnit "b") in
  let c := Some (mkUnit "c") in
  let u := EndUnitChunking ref a 11
             (StartUnitChunking ref b 10
                (StartUnitChunking ref a 9 (mkUnitHook (lru.New 2) [] []))) in
  List.map fst (logger (StartUnitChunking ref c 12 u)) = ["1/2/b"%string] /\
  logger (snd (UnitMetrics_ u)) = [] /\
  resident (snd (UnitMetrics_ u)) "1/2/a"%string = None.
Proof.
  intros ref a b c u.
  destruct (eviction_diagnostic_iff_unhandled u) as (_ & _ & HS & HU & _).
  split; [|split].
  - destruct (HS eq_refl ref c 12 "1/2/b"%string 1%nat
                eq_refl eq_refl eq_refl) as (_ & E & _).
    rewrite E. reflexivity.
  - destruct (HU eq_refl) as [E _]. rewrite E. reflexivity.
  - destruct (HU eq_refl) as [_ E].
    apply (E "1/2/a"%string
             (mkUnitMetrics a ref (Some 9) (Some 11) 0 0 [] false));
      reflexivity.
Defined.

(** ** Jobs without units (C7) *)

Lemma same_job_iff (a b : JobProgressRef) :
  same_job a b = true <-> SourceID a = SourceID b /\ JobID a = JobID b.
Proof. unfold same_job. now rewrite andb_true_iff, !Z.eqb_eq. Qed.

(** A unit that is filed under the no-unit key of a job belongs to that
    job. *)
Lemma no_unit_key_same_job ref r unit :
  id r unit = id ref None -> same_job ref r = true.
Proof.
  intros E. apply id_eq_iff in E. apply same_job_iff. intuition congruence.
Qed.

Lemma Unit_finishMetrics ref k m : Unit (finishMetrics ref k m) = Unit m.
Proof.
  unfold finishMetrics. destruct (HasPrefix _ _); auto.
  now destruct (Unit m) eqn:E.
Qed.

(** While a job uses no unit, the record under its no-unit key has no
    unit. *)
Lemma call_keeps_no_unit ref c u :
  WF u -> uses_unit ref c = false ->
  (forall m, entry u (id ref None) = Some m -> Unit m = None) ->
  forall m', entry (call c u) (id ref None) = Some m' -> Unit m' = None.
Proof.
  intros H Hc Hu m' Hm'.
  destruct (entry u (id ref None)) as [m|] eqn:Em.
  - rewrite (call_entry c u _ m m' H Em Hm'). specialize (Hu m eq_refl).
    destruct c as [r unit start|r unit end_|r unit chunk|r err|r|];
      cbn [effect uses_unit] in *; auto.
    + destruct (String.eqb_spec (id r unit) (id ref None)) as [E|]; auto.
      destruct unit as [un|]; auto.
      apply no_unit_key_same_job in E. congruence.
    + now destruct (String.eqb _ _).
    + now destruct (String.eqb _ _).
    + now rewrite Unit_finishMetrics.
  - apply entry_None in Em.
    destruct (creates (id ref None) c) eqn:Ec.
    2:{ pose proof (call_absent c u _ H Em Ec) as Hn.
        apply entry_None in Hn. congruence. }
    destruct c as [r unit start|r unit end_|r unit chunk|r err|r|];
      cbn [creates call uses_unit] in *; try discriminate.
    + apply String.eqb_eq in Ec. rewrite <- Ec in Hm'.
      rewrite StartUnitChunking_entry_eq in Hm' by assumption.
      injection Hm' as <-. cbn.
      destruct unit as [un|]; auto.
      apply no_unit_key_same_job in Ec. congruence.
    + destruct unit as [un|]; [discriminate|].
      apply String.eqb_eq in Ec. rewrite <- Ec in Hm', Em.
      rewrite ReportChunk_synthetic_entry_eq in Hm' by assumption.
      now injection Hm' as <-.
Qed.

Lemma run_keeps_no_unit ref cs u :
  WF u -> forallb (fun c => negb (uses_unit ref c)) cs = true ->
  (forall m, entry u (id ref None) = Some m -> Unit m = None) ->
  forall m', entry (run cs u) (id ref None) = Some m' -> Unit m' = None.
Proof.
  unfold run. revert u. induction cs as [|c cs IH]; intros u H Hcs Hu; auto.
  cbn [forallb] in Hcs. apply andb_true_iff in Hcs. destruct Hcs as [Hc Hcs].
  apply negb_true_iff in Hc. cbn [fold_left].
  apply IH; auto using WF_call. now apply call_keeps_no_unit.
Qed.

(** C7.  Take a job whose chunking events all have the nil unit, on a hook
    that did not hold its no-unit key at first.  If the no-unit record of
    the job is resident when [Finish] is called, it is resident afterwards
    with the start time, the end time and the errors of the job snapshot,
    and with its counters unchanged. *)
Theorem Finish_reconciles_no_unit_entry (u : UnitHook) (cs : list Call)
  (ref : JobProgressRef) (m : UnitMetrics) :
  wf u = true ->
  resident u (id ref None) = None ->
  forallb (fun c => negb (uses_unit ref c)) cs = true ->
  entry (run cs u) (id ref None) = Some m ->
  exists m',
    entry (Finish ref (run cs u)) (id ref None) = Some m' /\
    StartTime m' = JobProgressMetrics.StartTime (Snapshot ref) /\
    EndTime m' = JobProgressMetrics.EndTime (Snapshot ref) /\
    Errors m' = JobProgressMetrics.Errors (Snapshot ref) /\
    TotalChunks m' = TotalChunks m /\ TotalBytes m' = TotalBytes m.
Proof.
  intros H Hr Hcs Hm. apply wf_WF in H.
  assert (Hu : Unit m = None).
  { apply (run_keeps_no_unit ref cs u H Hcs); auto.
    intros m0 Hm0. apply entry_None in Hr. congruence. }
  exists (useJobMetrics (Snapshot ref) m). split; [|now repeat split].
  rewrite Finish_entry, Hm by auto using WF_run.
  unfold finishMetrics, HasPrefix. cbn [option_map].
  now rewrite prefix_refl, Hu.
Qed.

Lemma Finish_reconciles_no_unit_entry_witness :
  let snap := JobProgressMetrics.mk (Some 5) (Some 40) [errors_New "late"] in
  let ref0 := mkRef 1 2 (JobProgressMetrics.mk (Some 5) None []) in
  let ref := mkRef 1 2 snap in
  let cs := [CallReportChunk ref0 None (mkChunk [Byte.x00; Byte.x01]);
             CallReportError ref0 (errors_New "early");
             CallReportChunk ref0 None (mkChunk [Byte.x02])] in
  exists m',
    entry (Finish ref (run cs NewUnitHook)) (id ref None) = Some m' /\
    StartTime m' = Some 5 /\ EndTime m' = Some 40 /\
    Errors m' = [errors_New "late"] /\
    TotalChunks m' = 2 /\ TotalBytes m' = 3.
Proof.
  intros snap ref0 ref cs.
  apply (Finish_reconciles_no_unit_entry NewUnitHook cs ref
           (mkUnitMetrics None ref0 (Some 5) None 2 3
              [errors_New "early"] false));
    reflexivity.
Defined.

(** ** Counters (C3) *)

(** C3 fails as stated: starting a unit again replaces the record under its
    key, which stays resident, by a fresh one, and the counters found under
    the key drop to zero. *)
Lemma StartUnitChunking_resets_counters :
  let ref := mkRef 1 2 (JobProgressMetrics.mk None None []) in
  let a := Some (mkUnit "a") in
  let u1 := ReportChunk ref a (mkChunk [Byte.x00; Byte.x01])
              (StartUnitChunking ref a 10 NewUnitHook) in
  let u2 := StartUnitChunking ref a 20 u1 in
  option_map TotalChunks (entry u1 (id ref a)) = Some 1 /\
  option_map TotalBytes (entry u1 (id ref a)) = Some 2 /\
  option_map TotalChunks (entry u2 (id ref a)) = Some 0 /\
  option_map TotalBytes (entry u2 (id ref a)) = Some 0.
Proof. repeat split. Qed.

(** C3, as amended.  For a key that is resident before and after a call,
    the counters after the call are those of [countersAfter]: a
    [ReportChunk] for the key adds one chunk and the length of the payload
    modulo 2^64, a start under the key leaves both counters zero, and every
    other call leaves both counters as they are.  So the counters do not
    decrease under a call that is not a start under the key, as long as the
    addition does not overflow, and a [ReportChunk] for the key then adds
    exactly one chunk and the length of the payload. *)
Theorem counters_only_incremented (u : UnitHook) (c : Call) (k : string)
  (m m' : UnitMetrics) :
  wf u = true ->
  entry u k = Some m ->
  entry (call c u) k = Some m' ->
  (TotalChunks m', TotalBytes m') = countersAfter k c m /\
  (starts k c = false -> reports k c = false ->
   TotalChunks m' = TotalChunks m /\ TotalBytes m' = TotalBytes m) /\
  (forall ref unit chunk,
     c = CallReportChunk ref unit chunk -> id ref unit = k ->
     TotalChunks m' = uint64 (TotalChunks m + 1) /\
     TotalBytes m' =
       uint64 (TotalBytes m + uint64 (Z.of_nat (List.length (Data chunk))))
     /\
     (fits c m = true ->
      TotalChunks m' = TotalChunks m + 1 /\
      TotalBytes m' = TotalBytes m + Z.of_nat (List.length (Data chunk))))
  /\
  (starts k c = false -> fits c m = true ->
   TotalChunks m <= TotalChunks m' /\ TotalBytes m <= TotalBytes m') /\
  (starts k c = true -> TotalChunks m' = 0 /\ TotalBytes m' = 0).
Proof.
  intros H Hm Hm'. apply wf_WF in H.
  rewrite (call_entry c u k m m' H Hm Hm').
  assert (Hrange : in_range m = true).
  { unfold entry in Hm. destruct (resident u k) as [p|] eqn:Hr;
      [|discriminate]. injection Hm as <-. apply (WF_range _ H _ _ Hr). }
  apply in_range_iff in Hrange. destruct Hrange as [Hc Hb].
  destruct c as [ref unit start|ref unit end_|ref unit chunk|ref err|ref|];
    cbn [effect starts reports fits countersAfter].
  - destruct (String.eqb (id ref unit) k);
      repeat split; try discriminate; try reflexivity;
      try apply Z.le_refl; auto.
  - destruct (String.eqb (id ref unit) k);
      repeat split; try discriminate; try reflexivity;
      try apply Z.le_refl; auto.
  - destruct (String.eqb_spec (id ref unit) k) as [E|E];
      cbn [countChunk TotalChunks TotalBytes].
    + split; [reflexivity|]. split; [discriminate|].
      assert (G : (TotalChunks m + 1 <? 2 ^ 64) &&
                  (TotalBytes m + Z.of_nat (List.length (Data chunk))
                   <? 2 ^ 64) = true ->
                  uint64 (TotalChunks m + 1) = TotalChunks m + 1 /\
                  uint64 (TotalBytes m +
                          uint64 (Z.of_nat (List.length (Data chunk)))) =
                  TotalBytes m + Z.of_nat (List.length (Data chunk))).
      { intros Hfit. apply andb_true_iff in Hfit.
        rewrite !Z.ltb_lt in Hfit.
        rewrite (uint64_small (Z.of_nat _)) by lia.
        rewrite !uint64_small by lia. auto. }
      split; [|split; [|discriminate]].
      * intros r un ch [= -> -> ->] _.
        split; [reflexivity|]. split; [reflexivity|]. exact G.
      * intros _ Hfit. destruct (G Hfit) as [-> ->]. lia.
    + split; [reflexivity|]. split; [auto|].
      split; [|split; [intros; lia|discriminate]].
      intros r un ch [= -> -> ->] Hk. contradiction.
  - repeat split; try discriminate; try reflexivity;
      try apply Z.le_refl; auto.
  - assert (E : TotalChunks (finishMetrics ref k m) = TotalChunks m /\
                TotalBytes (finishMetrics ref k m) = TotalBytes m).
    { unfold finishMetrics. destruct (HasPrefix _ _); auto.
      now destruct (Unit m). }
    destruct E as [-> ->].
    repeat split; try discriminate; try reflexivity;
      try apply Z.le_refl; auto.
  - repeat split; try discriminate; try reflexivity;
      try apply Z.le_refl; auto.
Qed.

Lemma counters_only_incremented_witness :
  let ref := mkRef 1 2 (JobProgressMetrics.mk None None []) in
  let a := Some (mkUnit "a") in
  let u := StartUnitChunking ref a 10 NewUnitHook in
  let chunk := mkChunk [Byte.x00; Byte.x01] in
  let c := CallReportChunk ref a chunk in
  let m := mkUnitMetrics a ref (Some 10) None 0 0 [] false in
  let m' := mkUnitMetrics a ref (Some 10) None 1 2 [] false in
  wf u = true /\
  entry u "1/2/a" = Some m /\
  entry (call c u) "1/2/a" = Some m' /\
  TotalChunks m' = TotalChunks m + 1 /\
  TotalBytes m' = TotalBytes m + Z.of_nat (List.length (Data chunk)).
Proof.
  intros ref a u chunk c m m'.
  split; [reflexivity|]. split; [reflexivity|]. split; [reflexivity|].
  destruct (counters_only_incremented u c "1/2/a"%string m m'
              eq_refl eq_refl eq_refl) as (_ & _ & Hrep & _).
  destruct (Hrep ref a chunk eq_refl eq_refl) as (_ & _ & Hfit).
  exact (Hfit eq_refl).
Defined.

(** ** End times (C4) *)

(** C4 fails as stated.  Starting a finished unit again leaves its key
    resident with no end time; [Finish] overwrites the end time of a
    no-unit record with that of the job snapshot, which can be unset; and
    [EndUnitChunking] records an end time that precedes the start time. *)
Lemma end_time_cleared_or_before_start :
  let ref := mkRef 1 2 (JobProgressMetrics.mk (Some 5) None []) in
  let a := Some (mkUnit "a") in
  let u1 := EndUnitChunking ref a 30 (StartUnitChunking ref a 10 NewUnitHook) in
  let u2 := StartUnitChunking ref a 40 u1 in
  let v1 := EndUnitChunking ref None 30
              (ReportChunk ref None (mkChunk []) NewUnitHook) in
  let v2 := Finish ref v1 in
  let w := EndUnitChunking ref a 3 (StartUnitChunking ref a 10 NewUnitHook) in
  option_map EndTime (entry u1 (id ref a)) = Some (Some 30) /\
  option_map EndTime (entry u2 (id ref a)) = Some None /\
  option_map EndTime (entry v1 (id ref None)) = Some (Some 30) /\
  option_map EndTime (entry v2 (id ref None)) = Some None /\
  option_map StartTime (entry w (id ref a)) = Some (Some 10) /\
  option_map EndTime (entry w (id ref a)) = Some (Some 3).
Proof. repeat split. Qed.

(** C4, as amended.  For a key that is resident before and after a call
    and has an end time before it, the end time after the call is the one
    that [endTimeAfter] gives: unchanged for a chunk, an error, a read and
    every call for another key; the argument of an [EndUnitChunking] for
    the key, whatever the start time is; unset after a start under the key;
    and, for the [Finish] of the job of a no-unit record, the end time of
    the job snapshot. *)
Theorem end_time_after_call (u : UnitHook) (c : Call) (k : string)
  (m m' : UnitMetrics) (e : Time) :
  wf u = true ->
  entry u k = Some m ->
  EndTime m = Some e ->
  entry (call c u) k = Some m' ->
  EndTime m' = endTimeAfter k c m e.
Proof.
  intros H Hm He Hm'. apply wf_WF in H.
  rewrite (call_entry c u k m m' H Hm Hm').
  destruct c as [ref unit start|ref unit end_|ref unit chunk|ref err|ref|];
    cbn [effect endTimeAfter]; auto.
  - now destruct (String.eqb _ _).
  - now destruct (String.eqb _ _).
  - now destruct (String.eqb _ _).
  - unfold finishMetrics. destruct (HasPrefix _ _); auto.
    now destruct (Unit m).
Qed.

Lemma end_time_after_call_witness :
  let ref := mkRef 1 2 (JobProgressMetrics.mk None None []) in
  let a := Some (mkUnit "a") in
  let u := EndUnitChunking ref a 30 (StartUnitChunking ref a 10 NewUnitHook) in
  let c := CallReportChunk ref a (mkChunk [Byte.x00]) in
  let m := mkUnitMetrics a ref (Some 10) (Some 30) 0 0 [] false in
  EndTime (mkUnitMetrics a ref (Some 10) (Some 30) 1 1 [] false) = Some 30.
Proof.
  intros ref a u c m.
  apply (end_time_after_call u c "1/2/a"%string m
           (mkUnitMetrics a ref (Some 10) (Some 30) 1 1 [] false) 30);
    reflexivity.
Defined.

(** ** The life of a unit (C1) *)

Lemma uint64_add_l (a b : Z) : uint64 (uint64 a + b) = uint64 (a + b).
Proof. unfold uint64. now rewrite Zplus_mod_idemp_l. Qed.

Lemma uint64_add_r (a b : Z) : uint64 (a + uint64 b) = uint64 (a + b).
Proof. unfold uint64. now rewrite Zplus_mod_idemp_r. Qed.

Lemma payload_nonneg (chunks : list Chunk) : 0 <= payload chunks.
Proof. induction chunks as [|c chunks IH]; simpl; lia. Qed.

Lemma payload_app (a b : list Chunk) :
  payload (a ++ b) = payload a + payload b.
Proof. induction a as [|c a IH]; simpl; lia. Qed.

Lemma tracking_started ref unit start :
  tracking ref unit start 0 0 (startedMetrics ref unit start).
Proof. now repeat split. Qed.

(** A call that leaves the unit in progress keeps its record, counting the
    chunks that it reports under the key. *)
Lemma tracking_effect ref unit start n b c m :
  in_progress (id ref unit) c = true ->
  tracking ref unit start n b m ->
  tracking ref unit start
    (n + Z.of_nat (List.length (chunksFor (id ref unit) [c])))
    (b + payload (chunksFor (id ref unit) [c]))
    (effect (id ref unit) c m).
Proof.
  intros Hc (HU & HP & HS & HE & HC & HB).
  destruct c as [r un st|r un en|r un chunk|r err|r|];
    cbn [in_progress effect chunksFor flat_map] in *.
  - apply negb_true_iff in Hc. rewrite Hc. cbn.
    rewrite !Z.add_0_r. now repeat split.
  - apply negb_true_iff in Hc. rewrite Hc. cbn.
    rewrite !Z.add_0_r. now repeat split.
  - destruct (String.eqb (id r un) (id ref unit)); cbn.
    + repeat split; auto; cbn [countChunk TotalChunks TotalBytes].
      * now rewrite HC, uint64_add_l.
      * now rewrite HB, uint64_add_l, uint64_add_r, Z.add_0_r.
    + rewrite !Z.add_0_r. now repeat split.
  - cbn. rewrite !Z.add_0_r. now repeat split.
  - apply negb_true_iff in Hc. unfold finishMetrics. rewrite Hc. cbn.
    rewrite !Z.add_0_r. now repeat split.
  - cbn. rewrite !Z.add_0_r. now repeat split.
Qed.

Lemma chunksFor_cons k c cs :
  chunksFor k (c :: cs) = chunksFor k [c] ++ chunksFor k cs.
Proof. unfold chunksFor. cbn [flat_map]. now rewrite app_nil_r. Qed.

Lemma in_progress_run ref unit start cs u n b m :
  WF u ->
  entry u (id ref unit) = Some m ->
  tracking ref unit start n b m ->
  forallb (in_progress (id ref unit)) cs = true ->
  stays_resident (id ref unit) cs u = true ->
  exists m',
    entry (run cs u) (id ref unit) = Some m' /\
    tracking ref unit start
      (n + Z.of_nat (List.length (chunksFor (id ref unit) cs)))
      (b + payload (chunksFor (id ref unit) cs)) m'.
Proof.
  unfold run. revert u n b m.
  induction cs as [|c cs IH]; intros u n b m H Hm Ht Hcs Hres.
  - exists m. cbn. rewrite !Z.add_0_r. auto.
  - cbn [forallb] in Hcs. apply andb_true_iff in Hcs.
    destruct Hcs as [Hc Hcs]. cbn [stays_resident] in Hres.
    destruct (resident (call c u) (id ref unit)) as [p|] eqn:Hp;
      [|discriminate].
    assert (Hm1 : entry (call c u) (id ref unit) =
                  Some (deref (heap (call c u)) p))
      by (unfold entry; now rewrite Hp).
    pose proof (call_entry c u _ m _ H Hm Hm1) as E.
    pose proof (tracking_effect ref unit start n b c m Hc Ht) as Ht1.
    rewrite <- E in Ht1.
    destruct (IH (call c u) _ _ _ (WF_call c u H) Hm1 Ht1 Hcs Hres)
      as (m' & Hm' & Ht').
    exists m'. split; [exact Hm'|].
    rewrite chunksFor_cons, length_app, payload_app, Nat2Z.inj_add.
    now rewrite !Z.add_assoc in *.
Qed.

(** The scenario of the specification: unit "u1" started at 10, a chunk
    of 100 bytes, a chunk of 50 bytes, end at 25.  The first read returns
    the one finished record; the second read returns nothing. *)
Example scenario_u1 :
  let ref := mkRef 1 2 (JobProgressMetrics.mk None None []) in
  let u1 := Some (mkUnit "u1") in
  let u :=
    run [CallStartUnitChunking ref u1 10;
         CallReportChunk ref u1 (mkChunk (repeat Byte.x00 100));
         CallReportChunk ref u1 (mkChunk (repeat Byte.x00 50));
         CallEndUnitChunking ref u1 25] NewUnitHook in
  fst (UnitMetrics_ u) =
    [mkUnitMetrics u1 ref (Some 10) (Some 25) 2 150 [] false] /\
  List.map (ElapsedTime 99) (fst (UnitMetrics_ u)) = [15] /\
  fst (UnitMetrics_ (snd (UnitMetrics_ u))) = [] /\
  logger (snd (UnitMetrics_ u)) = [].
Proof. repeat split. Qed.

(** A cache of two entries: the lookup of [EndUnitChunking] refreshes unit
    "a", so the third start evicts unit "b", with a diagnostic. *)
Example scenario_eviction :
  let ref := mkRef 1 2 (JobProgressMetrics.mk None None []) in
  let a := Some (mkUnit "a") in
  let b := Some (mkUnit "b") in
  let c := Some (mkUnit "c") in
  let u :=
    run [CallStartUnitChunking ref a 1;
         CallStartUnitChunking ref b 2;
         CallEndUnitChunking ref a 3;
         CallStartUnitChunking ref c 4]
        (mkUnitHook (lru.New 2) [] []) in
  lru.Keys (metrics u) = ["1/2/a"; "1/2/c"]%string /\
  List.map fst (logger u) = ["1/2/b"%string].
Proof. repeat split. Qed.

(** [Sub] is the difference of the two instants when that difference is a
    [time.Duration], and a [time.Duration] in every case. *)
Lemma time_Sub_exact (t u : Time) :
  minDuration <= t - u <= maxDuration -> time_Sub t u = t - u.
Proof.
  intros [Hlo Hhi]. unfold time_Sub.
  destruct (Z.ltb_spec (t - u) minDuration); [lia|].
  destruct (Z.ltb_spec maxDuration (t - u)); [lia|reflexivity].
Qed.

Lemma time_Sub_range (t u : Time) :
  minDuration <= time_Sub t u <= maxDuration.
Proof.
  unfold time_Sub, minDuration, maxDuration.
  destruct (Z.ltb_spec (t - u) (- 2 ^ 63)); [lia|].
  destruct (Z.ltb_spec (2 ^ 63 - 1) (t - u)); lia.
Qed.

Lemma ElapsedTime_finished (now s e : Time) (m : UnitMetrics) :
  StartTime m = Some s -> EndTime m = Some e ->
  ElapsedTime now m = time_Sub e s.
Proof. intros Hs He. unfold ElapsedTime. now rewrite Hs, He. Qed.

(** C1 fails as stated, twice.  A unit that was started, fed a chunk, ended
    and read once is returned by no read that follows at once, yet a later
    start of the same unit files its key anew and the next read returns a
    record for that key again.  And the elapsed time of a finished record
    is a [time.Duration]: for a unit started at the zero [time.Time]
    (1 January of year 1, here in nanoseconds before the Unix epoch) and
    ended on 2 November 2026 it is the maximum duration, not the difference
    of the two instants. *)
Lemma record_returns_after_restart_and_elapsed_saturates :
  let ref := mkRef 1 2 (JobProgressMetrics.mk None None []) in
  let u1 := Some (mkUnit "u1") in
  let key := "1/2/u1"%string in
  let u3 :=
    run [CallStartUnitChunking ref u1 10;
         CallReportChunk ref u1 (mkChunk (repeat Byte.x00 100));
         CallEndUnitChunking ref u1 25] NewUnitHook in
  let u4 := snd (UnitMetrics_ u3) in
  let T0 := -62135596800000000000 in
  let T1 := 1793577600000000000 in
  let v := run [CallStartUnitChunking ref u1 T0;
                CallEndUnitChunking ref u1 T1] NewUnitHook in
  (records_for key (fst (UnitMetrics_ u3)) =
     [mkUnitMetrics u1 ref (Some 10) (Some 25) 1 100 [] false] /\
   records_for key (fst (UnitMetrics_ u4)) = [] /\
   records_for key
     (fst (UnitMetrics_ (run [CallStartUnitChunking ref u1 30] u4))) =
     [mkUnitMetrics u1 ref (Some 30) None 0 0 [] false]) /\
  (records_for key (fst (UnitMetrics_ v)) =
     [mkUnitMetrics u1 ref (Some T0) (Some T1) 0 0 [] false] /\
   List.map (ElapsedTime T1) (fst (UnitMetrics_ v)) = [maxDuration] /\
   maxDuration <> T1 - T0).
Proof.
  cbv zeta. split; [repeat split|].
  split; [reflexivity|]. split; [reflexivity|]. discriminate.
Qed.

(** C1, as amended.  Start a unit at [T0]; let any calls follow that leave
    the unit in progress and never evict its entry, among them the
    [ReportChunk] calls for the unit; end the unit at [T1].  The next
    [UnitMetrics()] returns exactly one record for the key of the unit, with
    the start time [T0] and the end time [T1], and with the number of
    reported chunks and the sum of their payload lengths as [uint64]
    counters hold them: the very numbers whenever they are below 2^64.  The
    elapsed time of the record is [T1.Sub(T0)]: the difference [T1 - T0]
    when that is a [time.Duration], and the nearest [time.Duration]
    otherwise.  After that, as long as no call files the key anew, no
    [UnitMetrics()] returns a record for it. *)
Theorem unit_lifecycle_drained_once (u : UnitHook) (ref : JobProgressRef)
  (unit : SourceUnit) (T0 T1 now : Time) (mid later : list Call) :
  let key := id ref unit in
  let chunks := chunksFor key mid in
  let N := Z.of_nat (List.length chunks) in
  let u1 := StartUnitChunking ref unit T0 u in
  let u3 := EndUnitChunking ref unit T1 (run mid u1) in
  wf u = true ->
  forallb (in_progress key) mid = true ->
  stays_resident key mid u1 = true ->
  forallb (fun c => negb (creates key c)) later = true ->
  (exists m,
     records_for key (fst (UnitMetrics_ u3)) = [m] /\
     TotalChunks m = uint64 N /\
     TotalBytes m = uint64 (payload chunks) /\
     (N < 2 ^ 64 -> TotalChunks m = N) /\
     (payload chunks < 2 ^ 64 -> TotalBytes m = payload chunks) /\
     StartTime m = Some T0 /\ EndTime m = Some T1 /\
     ElapsedTime now m = time_Sub T1 T0 /\
     (minDuration <= T1 - T0 <= maxDuration ->
      ElapsedTime now m = T1 - T0)) /\
  records_for key (fst (UnitMetrics_ (run later (snd (UnitMetrics_ u3))))) = [].
Proof.
  intros key chunks N u1 u3 H Hmid Hres Hlater. apply wf_WF in H.
  assert (H1 : WF u1) by now apply WF_StartUnitChunking.
  destruct (in_progress_run ref unit T0 mid u1 0 0 _ H1
              (StartUnitChunking_entry_eq ref unit T0 u H)
              (tracking_started ref unit T0) Hmid Hres)
    as (m & Hm & HU & HP & HS & HE & HC & HB).
  fold key chunks in Hm, HC, HB. rewrite Z.add_0_l in HC, HB. fold N in HC.
  assert (H2 : WF (run mid u1)) by now apply WF_run.
  assert (H3 : WF u3) by now apply WF_EndUnitChunking.
  assert (Hm3 : entry u3 key = Some (setEndTime (Some T1) m)).
  { unfold u3. rewrite EndUnitChunking_modify, modify_entry by assumption.
    fold key. now rewrite Hm, String.eqb_refl. }
  destruct (UnitMetrics_spec u3 H3) as (_ & _ & Hrec & Hent).
  split.
  - exists (setEndTime (Some T1) m). rewrite Hrec. unfold view. rewrite Hm3.
    split; [reflexivity|].
    assert (HT : ElapsedTime now (setEndTime (Some T1) m) = time_Sub T1 T0)
      by now apply ElapsedTime_finished.
    cbn [setEndTime TotalChunks TotalBytes StartTime EndTime].
    rewrite HC, HB, HS.
    split; [reflexivity|]. split; [reflexivity|].
    split; [intros Hn; apply uint64_small; unfold N in *; lia|].
    split; [intros Hb; apply uint64_small;
            pose proof (payload_nonneg chunks); lia|].
    split; [reflexivity|]. split; [reflexivity|].
    split; [exact HT|].
    intros Hfit. rewrite HT. now apply time_Sub_exact.
  - assert (Habs : resident (snd (UnitMetrics_ u3)) key = None).
    { apply entry_None. now rewrite Hent, Hm3. }
    pose proof (WF_UnitMetrics u3 H3) as H4.
    pose proof (run_absent later _ key H4 Habs Hlater) as Hlate.
    destruct (UnitMetrics_spec _ (WF_run later _ H4)) as (_ & _ & Hrec' & _).
    rewrite Hrec'. unfold view. apply entry_None in Hlate. now rewrite Hlate.
Qed.

Lemma unit_lifecycle_drained_once_witness :
  let ref := mkRef 1 2 (JobProgressMetrics.mk None None []) in
  let u1 := Some (mkUnit "u1") in
  let other := Some (mkUnit "u2") in
  let c100 := mkChunk (repeat Byte.x00 100) in
  let c50 := mkChunk (repeat Byte.x00 50) in
  let mid := [CallReportChunk ref u1 c100;
              CallStartUnitChunking ref other 12;
              CallUnitMetrics;
              CallReportChunk ref u1 c50] in
  let later := [CallEndUnitChunking ref other 30; CallUnitMetrics;
                CallReportChunk ref u1 c50] in
  let u3 := EndUnitChunking ref u1 20
              (run mid (StartUnitChunking ref u1 10 NewUnitHook)) in
  (exists m,
     records_for "1/2/u1"%string (fst (UnitMetrics_ u3)) = [m] /\
     TotalChunks m = 2 /\ TotalBytes m = 150 /\
     StartTime m = Some 10 /\ EndTime m = Some 20 /\
     ElapsedTime 99 m = 10) /\
  records_for "1/2/u1"%string
    (fst (UnitMetrics_ (run later (snd (UnitMetrics_ u3))))) = [].
Proof.
  intros ref u1 other c100 c50 mid later u3.
  destruct (unit_lifecycle_drained_once NewUnitHook ref u1 10 20 99 mid later
              eq_refl eq_refl eq_refl eq_refl)
    as [(m & Hrec & _ & _ & HC & HB & HS & HE & _ & HT) Hlater].
  split; [|exact Hlater].
  exists m. split; [exact Hrec|].
  split; [apply HC; reflexivity|].
  split; [apply HB; reflexivity|].
  split; [exact HS|]. split; [exact HE|].
  apply HT. unfold minDuration, maxDuration. lia.
Defined.

(** ** The read path in full *)

Lemma delete_absent {V : Type} (l : list (string * V)) (k : string) :
  ~ In k (map fst l) -> lru.delete k l = l.
Proof.
  induction l as [|[k0 v0] l IH]; simpl; auto. intros H.
  destruct (String.eqb_spec k0 k) as [->|]; [tauto|].
  rewrite IH; tauto.
Qed.

Lemma delete_last {V : Type} (l : list (string * V)) (k : string) (v : V) :
  ~ In k (map fst l) -> lru.delete k (l ++ [(k, v)]) = l.
Proof.
  induction l as [|[k0 v0] l IH]; simpl.
  - now rewrite String.eqb_refl.
  - intros H. destruct (String.eqb_spec k0 k) as [->|]; [tauto|].
    rewrite IH; tauto.
Qed.

Lemma delete_head {V : Type} (l : list (string * V)) (k : string) (v : V) :
  lru.delete k ((k, v) :: l) = l.
Proof. simpl. now rewrite String.eqb_refl. Qed.

Lemma metrics_Get_hit k u p :
  resident u k = Some p ->
  metrics_Get k u =
  (Some p,
   mkUnitHook
     (lru.mkCache ((k, p) :: lru.delete k (lru.items (metrics u)))
                  (lru.size (metrics u)))
     (heap u) (logger u)).
Proof. unfold resident, metrics_Get, lru.Get. now intros ->. Qed.

Lemma metrics_Remove_items k u :
  lru.items (metrics (metrics_Remove k u)) =
  lru.delete k (lru.items (metrics u)).
Proof.
  unfold metrics_Remove, lru.Remove.
  destruct (lru.lookup k (lru.items (metrics u))) eqn:E;
    rewrite evicted_metrics; simpl; auto.
  symmetry. apply delete_absent. now apply lookup_None.
Qed.

Lemma IsFinished_store_setHandled p h q :
  IsFinished (deref (store p setHandled h) q) = IsFinished (deref h q).
Proof.
  destruct (Nat.eq_dec q p) as [->|Hne]; [|now rewrite deref_store_ne].
  destruct (Nat.lt_ge_cases p (List.length h)) as [Hlt|Hge].
  - now rewrite deref_store_eq.
  - unfold deref. rewrite !nth_overflow; auto. now rewrite length_store.
Qed.

(** One iteration of the drain on the oldest entry that is left to visit:
    the entry moves in front of the visited ones, or leaves the cache when
    it is finished. *)
Lemma UnitMetrics_body_items A R k p output u :
  WF u -> lru.items (metrics u) = A ++ R ++ [(k, p)] ->
  lru.items (metrics (snd (UnitMetrics_body (output, u) k))) =
    (if unfinished (heap u) (k, p) then [(k, p)] else []) ++ A ++ R /\
  forall q, IsFinished (deref (heap (snd (UnitMetrics_body (output, u) k))) q)
            = IsFinished (deref (heap u) q).
Proof.
  intros H Hitems.
  assert (Hnd : NoDup (map fst ((A ++ R) ++ [(k, p)]))).
  { rewrite <- app_assoc, <- Hitems. apply (WF_keys _ H). }
  rewrite map_app in Hnd. cbn [map fst] in Hnd.
  apply NoDup_remove_2 in Hnd. rewrite app_nil_r in Hnd.
  assert (Hr : resident u k = Some p).
  { apply In_lookup; [apply (WF_keys _ H)|].
    rewrite Hitems. rewrite !in_app_iff. right. right. now left. }
  unfold UnitMetrics_body. rewrite (metrics_Get_hit k u p Hr).
  cbn [heap]. unfold unfinished. cbn [snd].
  rewrite Hitems, app_assoc, delete_last by assumption.
  destruct (IsFinished (deref (heap u) p)) eqn:Efin; cbn [negb snd].
  - split.
    + rewrite metrics_Remove_items. cbn [update metrics lru.items].
      now rewrite delete_head.
    + intros q. rewrite metrics_Remove_heap. cbn [update heap].
      apply IsFinished_store_setHandled.
  - split; reflexivity.
Qed.

Lemma UnitMetrics_loop_items R :
  forall A output u,
    WF u -> lru.items (metrics u) = A ++ R ->
    lru.items
      (metrics (snd (fold_left UnitMetrics_body (rev (map fst R))
                       (output, u)))) =
    filter (unfinished (heap u)) R ++ A.
Proof.
  induction R as [|[k p] R IH] using rev_ind; intros A output u H Hitems.
  - cbn. now rewrite Hitems, app_nil_r.
  - rewrite map_app, rev_app_distr. cbn [map fst rev app fold_left].
    destruct (UnitMetrics_body_items A R k p output u H Hitems)
      as [Hit Hfin].
    pose proof (WF_UnitMetrics_body (output, u) k H) as H'.
    destruct (UnitMetrics_body (output, u) k) as [output' u'].
    cbn [snd] in *.
    rewrite app_assoc in Hit.
    rewrite (IH _ output' u' H' Hit).
    rewrite filter_app. cbn [filter].
    assert (E : filter (unfinished (heap u')) R
                = filter (unfinished (heap u)) R).
    { apply filter_ext. intros e. unfold unfinished. now rewrite Hfin. }
    rewrite E, <- !app_assoc. f_equal.
Qed.

(** [UnitMetrics()] leaves in the cache the entries that are not finished,
    in the recency order they had. *)
Lemma UnitMetrics_items u :
  WF u ->
  lru.items (metrics (snd (UnitMetrics_ u))) =
  filter (unfinished (heap u)) (lru.items (metrics u)).
Proof.
  intros H. unfold UnitMetrics_, lru.Keys.
  rewrite (UnitMetrics_loop_items (lru.items (metrics u)) [] [] u H eq_refl).
  apply app_nil_r.
Qed.

(** The output of [UnitMetrics()] is the records of the cache entries, the
    oldest first. *)
Lemma views_pointers u l :
  NoDup (map fst l) ->
  (forall k p, In (k, p) l -> resident u k = Some p) ->
  flat_map (view u) (map fst l) = map (deref (heap u)) (map snd l).
Proof.
  induction l as [|[k p] l IH]; intros Hnd Hin; cbn; auto.
  inversion Hnd; subst.
  unfold view at 1. unfold entry. rewrite (Hin k p) by now left.
  cbn. f_equal. apply IH; auto. intros k' p' H'. apply Hin. now right.
Qed.

Lemma UnitMetrics_output u :
  WF u ->
  fst (UnitMetrics_ u) =
  map (deref (heap u)) (rev (map snd (lru.items (metrics u)))).
Proof.
  intros H. destruct (UnitMetrics_spec u H) as (Ho & _).
  rewrite Ho. unfold lru.Keys. rewrite <- !map_rev.
  apply views_pointers.
  - rewrite map_rev. apply NoDup_rev, (WF_keys _ H).
  - intros k p Hin. apply In_lookup; [apply (WF_keys _ H)|].
    now apply in_rev.
Qed.

Lemma UnitMetrics_heap_unfinished u q :
  WF u -> IsFinished (deref (heap u) q) = false ->
  deref (heap (snd (UnitMetrics_ u))) q = deref (heap u) q.
Proof.
  intros H Hq. unfold UnitMetrics_.
  generalize (lru.Keys (metrics u)) as ids. generalize (@nil UnitMetrics).
  intros output ids. revert output u H Hq.
  induction ids as [|k ids IH]; intros output u H Hq; cbn [fold_left]; auto.
  pose proof (WF_UnitMetrics_body (output, u) k H) as H'.
  assert (E : deref (heap (snd (UnitMetrics_body (output, u) k))) q
              = deref (heap u) q).
  { unfold UnitMetrics_body.
    destruct (metrics_Get_spec k u) as (u1 & E1 & Hro). rewrite E1.
    destruct (resident u k) as [p|]; auto.
    rewrite (ro_heap _ _ Hro).
    destruct (IsFinished (deref (heap u) p)) eqn:Ef; cbn [snd].
    - rewrite metrics_Remove_heap. cbn [update heap].
      rewrite (ro_heap _ _ Hro). apply deref_store_ne. congruence.
    - apply f_equal2; auto. apply (ro_heap _ _ Hro). }
  destruct (UnitMetrics_body (output, u) k) as [output' u'].
  cbn [snd] in *. rewrite IH; auto. now rewrite E.
Qed.

(** ** Further properties of [UnitMetrics()] *)

(** X1.  The output of [UnitMetrics()] holds one record for every resident
    key and no other: the keys of its records are the keys of the cache,
    the oldest first, so that it has as many records as the cache has
    entries and no two records for one key.  The records are copied before
    the finished ones are marked: none is marked handled. *)
Theorem UnitMetrics_one_record_per_key (u : UnitHook) :
  wf u = true ->
  map key_of (fst (UnitMetrics_ u)) = lru.Keys (metrics u) /\
  List.length (fst (UnitMetrics_ u)) = lru.Len (metrics u) /\
  NoDup (map key_of (fst (UnitMetrics_ u))) /\
  (forall m, In m (fst (UnitMetrics_ u)) -> handled m = false).
Proof.
  intros H. apply wf_WF in H.
  assert (A : forall e, In e (lru.items (metrics u)) ->
                        resident u (fst e) = Some (snd e)).
  { intros [k p] Hin. apply In_lookup; [apply (WF_keys _ H)|assumption]. }
  assert (K : map key_of (fst (UnitMetrics_ u)) = lru.Keys (metrics u)).
  { rewrite (UnitMetrics_output u H). unfold lru.Keys.
    rewrite <- !map_rev, !map_map. apply map_ext_in.
    intros e Hin. apply in_rev in Hin. apply (WF_key _ H), A, Hin. }
  split; [exact K|]. split; [|split].
  - rewrite (UnitMetrics_output u H). unfold lru.Len.
    now rewrite length_map, length_rev, length_map.
  - rewrite K. now apply NoDup_Keys.
  - intros m Hm. rewrite (UnitMetrics_output u H) in Hm.
    rewrite <- map_rev, map_map in Hm. apply in_map_iff in Hm.
    destruct Hm as (e & <- & Hin). apply in_rev in Hin.
    apply (WF_unhandled _ H (fst e)), A, Hin.
Qed.

Lemma UnitMetrics_one_record_per_key_witness :
  let ref := mkRef 1 2 (JobProgressMetrics.mk None None []) in
  let u := run [CallStartUnitChunking ref (Some (mkUnit "a")) 1;
                CallStartUnitChunking ref (Some (mkUnit "b")) 2;
                CallEndUnitChunking ref (Some (mkUnit "a")) 3]
               NewUnitHook in
  map key_of (fst (UnitMetrics_ u)) = ["1/2/b"; "1/2/a"]%string /\
  List.length (fst (UnitMetrics_ u)) = 2%nat.
Proof.
  intros ref u.
  destruct (UnitMetrics_one_record_per_key u eq_refl) as (K & L & _).
  split; [exact K|exact L].
Defined.

(** X2.  [UnitMetrics()] leaves in the cache exactly the entries that are
    not finished, in the recency order they had before the call: although
    every lookup of the loop refreshes an entry, reading the metrics does
    not change which entry is evicted next.  The records of the entries
    that stay are not changed, and no finished entry stays. *)
Theorem UnitMetrics_keeps_unfinished_in_order (u : UnitHook) :
  wf u = true ->
  lru.items (metrics (snd (UnitMetrics_ u))) =
    filter (unfinished (heap u)) (lru.items (metrics u)) /\
  (forall k m, entry (snd (UnitMetrics_ u)) k = Some m ->
               entry u k = Some m /\ IsFinished m = false).
Proof.
  intros H. apply wf_WF in H. split; [now apply UnitMetrics_items|].
  intros k m Hm. destruct (UnitMetrics_spec u H) as (_ & _ & _ & He).
  rewrite He in Hm. destruct (entry u k) as [m0|]; [|discriminate].
  cbn in Hm. destruct (IsFinished m0) eqn:E; [discriminate|].
  injection Hm as <-. auto.
Qed.

Lemma UnitMetrics_keeps_unfinished_in_order_witness :
  let ref := mkRef 1 2 (JobProgressMetrics.mk None None []) in
  let u := run [CallStartUnitChunking ref (Some (mkUnit "a")) 1;
                CallStartUnitChunking ref (Some (mkUnit "b")) 2;
                CallStartUnitChunking ref (Some (mkUnit "c")) 3;
                CallEndUnitChunking ref (Some (mkUnit "b")) 4]
               NewUnitHook in
  map fst (lru.items (metrics u)) = ["1/2/b"; "1/2/c"; "1/2/a"]%string /\
  map fst (lru.items (metrics (snd (UnitMetrics_ u))))
    = ["1/2/c"; "1/2/a"]%string.
Proof.
  intros ref u. split; [reflexivity|].
  destruct (UnitMetrics_keeps_unfinished_in_order u eq_refl) as [E _].
  rewrite E. reflexivity.
Defined.

(** X3.  A second [UnitMetrics()] right after a first returns the records
    of the first that were not finished, in the same order, and leaves the
    cache as the first left it. *)
Theorem UnitMetrics_second_read (u : UnitHook) :
  wf u = true ->
  fst (UnitMetrics_ (snd (UnitMetrics_ u))) =
    filter (fun m => negb (IsFinished m)) (fst (UnitMetrics_ u)) /\
  lru.items (metrics (snd (UnitMetrics_ (snd (UnitMetrics_ u))))) =
    lru.items (metrics (snd (UnitMetrics_ u))).
Proof.
  intros H. apply wf_WF in H.
  pose proof (WF_UnitMetrics u H) as H'.
  assert (Hsame : forall e,
            In e (filter (unfinished (heap u)) (lru.items (metrics u))) ->
            deref (heap (snd (UnitMetrics_ u))) (snd e)
            = deref (heap u) (snd e)).
  { intros e He. apply filter_In in He. destruct He as [_ He].
    apply UnitMetrics_heap_unfinished; auto.
    unfold unfinished in He. now apply negb_true_iff in He. }
  split.
  - rewrite (UnitMetrics_output _ H'), (UnitMetrics_output u H).
    rewrite (UnitMetrics_items u H).
    rewrite <- !map_rev, !map_map, filter_map_swap, filter_rev.
    apply map_ext_in. intros e He. apply in_rev in He. now apply Hsame.
  - rewrite (UnitMetrics_items _ H'), (UnitMetrics_items u H).
    apply forallb_filter_id. apply forallb_forall. intros e He.
    unfold unfinished at 1. rewrite (Hsame e He).
    apply filter_In in He. apply He.
Qed.

Lemma UnitMetrics_second_read_witness :
  let ref := mkRef 1 2 (JobProgressMetrics.mk None None []) in
  let u := run [CallStartUnitChunking ref (Some (mkUnit "a")) 1;
                CallStartUnitChunking ref (Some (mkUnit "b")) 2;
                CallEndUnitChunking ref (Some (mkUnit "a")) 3]
               NewUnitHook in
  map key_of (fst (UnitMetrics_ u)) = ["1/2/b"; "1/2/a"]%string /\
  map key_of (fst (UnitMetrics_ (snd (UnitMetrics_ u)))) = ["1/2/b"]%string.
Proof.
  intros ref u. split; [reflexivity|].
  destruct (UnitMetrics_second_read u eq_refl) as [E _].
  rewrite E. reflexivity.
Defined.

(** ** Further properties of [Finish] *)

(** In a well-formed state the prefix scan of [Finish] selects, among the
    records without a unit, the one under the no-unit key of the job. *)
Lemma finishMetrics_other_key u ref k m :
  WF u -> entry u k = Some m -> k <> id ref None ->
  finishMetrics ref k m = m.
Proof.
  intros H Hm Hne. unfold finishMetrics.
  destruct (HasPrefix k (id ref None)) eqn:Hp; auto.
  destruct (Unit m) eqn:HU; auto. exfalso. apply Hne.
  destruct (WF_entry u k m H Hm) as (p & Hr & -> & _).
  pose proof (WF_key _ H _ _ Hr) as Hk. unfold key_of in Hk.
  rewrite HU in Hk. rewrite <- Hk in Hp |- *.
  apply id_prefix_iff in Hp. apply id_eq_iff. intuition.
Qed.

(** X4.  [Finish] changes at most one entry, the one under the no-unit key
    of the job, and only if its record has no unit: every other key keeps
    its record, whatever its job.  [Finish] neither adds nor evicts a key
    and logs no diagnostic. *)
Theorem Finish_changes_only_no_unit_entry (u : UnitHook)
  (ref : JobProgressRef) (k : string) :
  wf u = true ->
  resident (Finish ref u) k = resident u k /\
  logger (Finish ref u) = logger u /\
  (k <> id ref None -> entry (Finish ref u) k = entry u k) /\
  (forall m un, entry u k = Some m -> Unit m = Some un ->
                entry (Finish ref u) k = Some m).
Proof.
  intros H. apply wf_WF in H.
  split; [apply Finish_resident|]. split; [apply Finish_logger|].
  split.
  - intros Hne. rewrite Finish_entry by assumption.
    destruct (entry u k) as [m|] eqn:Hm; auto. cbn.
    now rewrite (finishMetrics_other_key u ref k m H Hm Hne).
  - intros m un Hm HU. rewrite Finish_entry, Hm by assumption. cbn.
    unfold finishMetrics. rewrite HU. now destruct (HasPrefix _ _).
Qed.

Lemma Finish_changes_only_no_unit_entry_witness :
  let ref := mkRef 1 2 (JobProgressMetrics.mk (Some 5) (Some 9) []) in
  let other := mkRef 1 21 (JobProgressMetrics.mk None None []) in
  let u := run [CallReportChunk ref None (mkChunk []);
                CallReportChunk other None (mkChunk []);
                CallStartUnitChunking ref (Some (mkUnit "a")) 7]
               NewUnitHook in
  entry (Finish ref u) "1/21/"%string = entry u "1/21/"%string /\
  entry (Finish ref u) "1/2/a"%string = entry u "1/2/a"%string /\
  logger (Finish ref u) = [].
Proof.
  intros ref other u. split; [|split].
  - destruct (Finish_changes_only_no_unit_entry u ref "1/21/"%string eq_refl)
      as (_ & _ & E & _).
    apply E. discriminate.
  - destruct (Finish_changes_only_no_unit_entry u ref "1/2/a"%string eq_refl)
      as (_ & _ & E & _).
    apply E. discriminate.
  - destruct (Finish_changes_only_no_unit_entry u ref "1/2/"%string eq_refl)
      as (_ & E & _).
    rewrite E. reflexivity.
Defined.

(** X5.  [Finish] is idempotent on the entries: a second [Finish] with the
    same job snapshot changes no record and no key. *)
Theorem Finish_twice (u : UnitHook) (ref : JobProgressRef) (k : string) :
  wf u = true ->
  entry (Finish ref (Finish ref u)) k = entry (Finish ref u) k /\
  resident (Finish ref (Finish ref u)) k = resident u k.
Proof.
  intros H. apply wf_WF in H. split.
  - rewrite (Finish_entry ref (Finish ref u)) by now apply WF_Finish.
    rewrite Finish_entry by assumption.
    destruct (entry u k) as [m|]; cbn; auto.
    now rewrite finishMetrics_idem.
  - now rewrite !Finish_resident.
Qed.

Lemma Finish_twice_witness :
  let ref := mkRef 1 2 (JobProgressMetrics.mk (Some 5) (Some 9) []) in
  let u := ReportChunk ref None (mkChunk [Byte.x00]) NewUnitHook in
  entry (Finish ref (Finish ref u)) "1/2/"%string =
  Some (mkUnitMetrics None ref (Some 5) (Some 9) 1 1 [] false).
Proof.
  intros ref u.
  destruct (Finish_twice u ref "1/2/"%string eq_refl) as [E _].
  rewrite E. reflexivity.
Defined.

(** ** Writes for one unit *)

(** X6.  [EndUnitChunking] and [ReportChunk] for a unit change the record
    of that unit only.  [EndUnitChunking] never changes another record, a
    key or the log; neither does [ReportChunk], unless it is the chunk of a
    source without units whose no-unit key is absent, which inserts that
    key. *)
Theorem unit_write_is_local (u : UnitHook) (ref : JobProgressRef)
  (unit : SourceUnit) (end_ : Time) (chunk : Chunk) (k : string) :
  wf u = true ->
  (resident (EndUnitChunking ref unit end_ u) k = resident u k /\
   logger (EndUnitChunking ref unit end_ u) = logger u /\
   (k <> id ref unit -> entry (EndUnitChunking ref unit end_ u) k = entry u k))
  /\
  (resident u (id ref unit) <> None \/ unit <> None ->
   resident (ReportChunk ref unit chunk u) k = resident u k /\
   logger (ReportChunk ref unit chunk u) = logger u /\
   (k <> id ref unit -> entry (ReportChunk ref unit chunk u) k = entry u k)).
Proof.
  intros H. apply wf_WF in H.
  assert (M : forall f,
            resident (modify (id ref unit) f u) k = resident u k /\
            logger (modify (id ref unit) f u) = logger u /\
            (k <> id ref unit -> entry (modify (id ref unit) f u) k
                                 = entry u k)).
  { intros f. split; [apply modify_resident|]. split; [apply modify_logger|].
    intros Hne. rewrite modify_entry by assumption.
    apply String.eqb_neq in Hne. rewrite Hne. now destruct (entry u k). }
  split; [rewrite EndUnitChunking_modify; apply M|].
  intros Hc. destruct (resident u (id ref unit)) as [p|] eqn:Hr.
  - rewrite ReportChunk_hit by congruence. apply M.
  - destruct unit as [un|]; [|destruct Hc; congruence].
    rewrite ReportChunk_evicted by assumption. auto.
Qed.

Lemma unit_write_is_local_witness :
  let ref := mkRef 1 2 (JobProgressMetrics.mk None None []) in
  let a := Some (mkUnit "a") in
  let b := Some (mkUnit "b") in
  let u := StartUnitChunking ref b 2 (StartUnitChunking ref a 1 NewUnitHook) in
  entry (EndUnitChunking ref a 9 u) "1/2/b"%string = entry u "1/2/b"%string /\
  entry (ReportChunk ref a (mkChunk [Byte.x00]) u) "1/2/b"%string
  = entry u "1/2/b"%string.
Proof.
  intros ref a b u.
  destruct (unit_write_is_local u ref a 9 (mkChunk [Byte.x00])
              "1/2/b"%string eq_refl) as [(_ & _ & HE) HC].
  split.
  - apply HE. discriminate.
  - destruct HC as (_ & _ & HC); [right; discriminate|].
    apply HC. discriminate.
Defined.

Lemma countChunk_comm c1 c2 m :
  countChunk c1 (countChunk c2 m) = countChunk c2 (countChunk c1 m).
Proof.
  unfold countChunk. cbn [Unit Parent StartTime EndTime TotalChunks TotalBytes
                          Errors handled].
  f_equal. rewrite !uint64_add_l. f_equal. lia.
Qed.

(** X7.  Two chunks reported for the same unit commute: either order
    leaves the same record under every key, so the totals do not depend on
    the order in which concurrent reports take the lock. *)
Theorem ReportChunk_commutes (u : UnitHook) (ref : JobProgressRef)
  (unit : SourceUnit) (c1 c2 : Chunk) (k : string) :
  wf u = true ->
  entry (ReportChunk ref unit c2 (ReportChunk ref unit c1 u)) k =
  entry (ReportChunk ref unit c1 (ReportChunk ref unit c2 u)) k.
Proof.
  intros H. apply wf_WF in H.
  destruct (resident u (id ref unit)) as [p|] eqn:Hr.
  - assert (R : forall c, resident (ReportChunk ref unit c u) (id ref unit)
                          <> None).
    { intros c. rewrite ReportChunk_hit, modify_resident; congruence. }
    rewrite (ReportChunk_hit ref unit c2 (ReportChunk ref unit c1 u)),
      (ReportChunk_hit ref unit c1 (ReportChunk ref unit c2 u)) by apply R.
    rewrite !modify_entry by auto using WF_ReportChunk.
    rewrite !(ReportChunk_hit ref unit _ u) by congruence.
    rewrite !modify_entry by assumption.
    destruct (entry u k) as [m|]; cbn; auto.
    destruct (String.eqb k (id ref unit)); auto.
    now rewrite countChunk_comm.
  - destruct unit as [un|].
    + now rewrite !(ReportChunk_evicted ref un _ u) by assumption.
    + assert (R : forall c, resident (ReportChunk ref None c u) (id ref None)
                            <> None).
      { intros c. pose proof (ReportChunk_synthetic_entry_eq ref c u H Hr) as E.
        intros Hn. apply entry_None in Hn. congruence. }
      rewrite (ReportChunk_hit ref None c2 (ReportChunk ref None c1 u)),
        (ReportChunk_hit ref None c1 (ReportChunk ref None c2 u)) by apply R.
      rewrite !modify_entry by auto using WF_ReportChunk.
      destruct (String.eqb_spec k (id ref None)) as [->|Hne].
      * rewrite !ReportChunk_synthetic_entry_eq by assumption. cbn.
        now rewrite countChunk_comm.
      * assert (E : forall c c',
                  entry (ReportChunk ref None c u) k =
                  entry (ReportChunk ref None c' u) k).
        { intros c c'. rewrite !ReportChunk_synthetic by assumption.
          unfold entry. rewrite !update_resident. cbn [update heap].
          match goal with
          | |- option_map _ ?r = _ => destruct r as [q|] eqn:Hq
          end; cbn; auto.
          f_equal. rewrite !deref_store_ne; auto.
          all: intros ->; apply metrics_Add_resident_ne in Hq; auto;
            change (resident u k = Some (List.length (heap u))) in Hq;
            pose proof (WF_ptr _ H _ _ Hq); lia. }
        rewrite (E c1 c2).
        now destruct (entry (ReportChunk ref None c2 u) k).
Qed.

Lemma ReportChunk_commutes_witness :
  let ref := mkRef 1 2 (JobProgressMetrics.mk None None []) in
  let c1 := mkChunk [Byte.x00] in
  let c2 := mkChunk [Byte.x01; Byte.x02] in
  entry (ReportChunk ref None c2 (ReportChunk ref None c1 NewUnitHook))
        "1/2/"%string =
  entry (ReportChunk ref None c1 (ReportChunk ref None c2 NewUnitHook))
        "1/2/"%string.
Proof.
  intros ref c1 c2.
  apply (ReportChunk_commutes NewUnitHook ref None c1 c2 "1/2/"%string).
  reflexivity.
Defined.

(** ** Recorded errors *)

Lemma addErrors_nil m : addErrors [] m = m.
Proof. unfold addErrors. rewrite app_nil_r. now destruct m. Qed.

Lemma addErrors_addErrors a b m :
  addErrors b (addErrors a m) = addErrors (a ++ b) m.
Proof. unfold addErrors. cbn. now rewrite app_assoc. Qed.

(** X8.  The errors recorded under a key are append-only between a start
    and [Finish]: for a key that is resident before and after a call which
    is neither a start under the key nor a [Finish], the errors before the
    call are a prefix of the errors after it, and only [ReportError] adds
    any. *)
Theorem errors_append_only (u : UnitHook) (c : Call) (k : string)
  (m m' : UnitMetrics) :
  wf u = true ->
  entry u k = Some m ->
  entry (call c u) k = Some m' ->
  starts k c = false ->
  isFinish c = false ->
  exists more,
    Errors m' = Errors m ++ more /\
    (isReportError c = false -> more = []).
Proof.
  intros H Hm Hm' Hs Hf. apply wf_WF in H.
  rewrite (call_entry c u k m m' H Hm Hm').
  destruct c as [ref unit start|ref unit end_|ref unit chunk|ref err|ref|];
    cbn [effect starts isFinish isReportError] in *; try discriminate.
  - rewrite Hs. exists []. now rewrite app_nil_r.
  - exists []. rewrite app_nil_r. split; auto.
    now destruct (String.eqb _ _).
  - exists []. rewrite app_nil_r. split; auto.
    now destruct (String.eqb _ _).
  - exists (reportedUnder ref err k). split; [reflexivity|discriminate].
  - exists []. now rewrite app_nil_r.
Qed.

Lemma errors_append_only_witness :
  let ref := mkRef 1 2 (JobProgressMetrics.mk None None []) in
  let a := Some (mkUnit "a") in
  let e1 := ChunkError a (errors_New "first") in
  let e2 := ChunkError a (errors_New "second") in
  let u := ReportError ref e1 (StartUnitChunking ref a 1 NewUnitHook) in
  let m := mkUnitMetrics a ref (Some 1) None 0 0 [e1] false in
  let m' := mkUnitMetrics a ref (Some 1) None 0 0 [e1; e2] false in
  exists more, Errors m' = Errors m ++ more.
Proof.
  intros ref a e1 e2 u m m'.
  destruct (errors_append_only u (CallReportError ref e2) "1/2/a"%string
              m m' eq_refl eq_refl eq_refl eq_refl eq_refl)
    as (more & E & _).
  exists more. exact E.
Defined.

(** X9.  Errors are recorded in the order of the reports: after a list of
    [ReportError] calls for a job, the record under every key has gained,
    in the order of the list, the errors that each call files under that
    key. *)
Theorem reportErrors_in_order (u : UnitHook) (ref : JobProgressRef)
  (errs : list error) (k : string) :
  wf u = true ->
  entry (reportErrors ref errs u) k =
  option_map
    (addErrors (flat_map (fun err => reportedUnder ref err k) errs))
    (entry u k).
Proof.
  intros H. apply wf_WF in H. unfold reportErrors. revert u H.
  induction errs as [|err errs IH]; intros u H; cbn [fold_left flat_map].
  - destruct (entry u k); cbn; auto. now rewrite addErrors_nil.
  - rewrite IH by now apply WF_ReportError.
    rewrite ReportError_entry by assumption.
    destruct (entry u k); cbn; auto. now rewrite addErrors_addErrors.
Qed.

Lemma reportErrors_in_order_witness :
  let ref := mkRef 1 2 (JobProgressMetrics.mk None None []) in
  let a := Some (mkUnit "a") in
  let e1 := errors_New "job" in
  let e2 := ChunkError a (errors_New "unit") in
  let e3 := fmt_Errorf "wrapped" e2 in
  let u := ReportChunk ref None (mkChunk [])
             (StartUnitChunking ref a 1 NewUnitHook) in
  option_map Errors (entry (reportErrors ref [e1; e2; e3] u) "1/2/"%string)
    = Some [e1; e2; e3] /\
  option_map Errors (entry (reportErrors ref [e1; e2; e3] u) "1/2/a"%string)
    = Some [e2; e3].
Proof.
  intros ref a e1 e2 e3 u. split.
  - rewrite (reportErrors_in_order u ref [e1; e2; e3] "1/2/"%string eq_refl).
    reflexivity.
  - rewrite (reportErrors_in_order u ref [e1; e2; e3] "1/2/a"%string eq_refl).
    reflexivity.
Defined.

(** ** Starts and recency *)

Lemma alloc_resident m u k : resident (snd (alloc m u)) k = resident u k.
Proof. reflexivity. Qed.

(** X10.  A start evicts nothing and logs nothing when its key is already
    resident or the cache is below its capacity: every other key keeps its
    record.  In the first case the record that the key had, finished or
    not, is replaced by the fresh one without any diagnostic. *)
Theorem StartUnitChunking_quiet (u : UnitHook) (ref : JobProgressRef)
  (unit : SourceUnit) (start : Time) (k : string) :
  wf u = true ->
  resident u (id ref unit) <> None \/
  (lru.Len (metrics u) < lru.size (metrics u))%nat ->
  logger (StartUnitChunking ref unit start u) = logger u /\
  entry (StartUnitChunking ref unit start u) (id ref unit) =
    Some (startedMetrics ref unit start) /\
  (k <> id ref unit ->
   entry (StartUnitChunking ref unit start u) k = entry u k).
Proof.
  intros H Hq. apply wf_WF in H.
  split; [|split; [now apply StartUnitChunking_entry_eq|]].
  - unfold StartUnitChunking. cbn [alloc].
    match goal with
    | |- logger (metrics_Add ?a ?b ?v) = _ =>
        destruct (metrics_Add_quiet a b v) as [E _]; [exact Hq|exact E]
    end.
  - intros Hne. unfold entry, StartUnitChunking. cbn [alloc].
    match goal with
    | |- context [metrics_Add ?a ?b ?v] =>
        destruct (metrics_Add_quiet a b v) as [_ E]; [exact Hq|];
          rewrite (E k Hne), metrics_Add_heap
    end.
    change (resident (_ : UnitHook) k) with (resident u k). cbn [heap].
    destruct (resident u k) as [q|] eqn:Hr; cbn; auto. f_equal.
    apply deref_alloc_old, (WF_ptr _ H _ _ Hr).
Qed.

Lemma StartUnitChunking_quiet_witness :
  let ref := mkRef 1 2 (JobProgressMetrics.mk None None []) in
  let a := Some (mkUnit "a") in
  let u := ReportChunk ref a (mkChunk [Byte.x00])
             (StartUnitChunking ref a 1 (mkUnitHook (lru.New 1) [] [])) in
  option_map TotalChunks (entry u "1/2/a"%string) = Some 1 /\
  logger (StartUnitChunking ref a 5 u) = [] /\
  entry (StartUnitChunking ref a 5 u) "1/2/a"%string =
    Some (mkUnitMetrics a ref (Some 5) None 0 0 [] false).
Proof.
  intros ref a u. split; [reflexivity|].
  destruct (StartUnitChunking_quiet u ref a 5 "1/2/a"%string eq_refl)
    as (L & E & _); [left; discriminate|].
  split; [exact L|exact E].
Defined.

Lemma Add_keeps_front (k k2 : string) (p p2 : ptr)
  (rest : list (string * ptr)) (size : nat) :
  k2 <> k -> (2 <= size)%nat ->
  lru.lookup k
    (lru.items (snd (lru.Add k2 p2 (lru.mkCache ((k, p) :: rest) size))))
  = Some p.
Proof.
  intros Hne Hs. unfold lru.Add. cbn [lru.items lru.size].
  destruct (lru.lookup k2 ((k, p) :: rest)) eqn:E; cbn [snd lru.items].
  - cbn [lru.lookup]. destruct (String.eqb_spec k2 k); [congruence|].
    rewrite lookup_delete_ne by congruence.
    cbn. now rewrite String.eqb_refl.
  - case_ltb E1; cbn [snd lru.items].
    + apply Nat.ltb_lt in E1. cbn [List.length] in E1.
      destruct rest as [|e rest]; [cbn in E1; lia|].
      change (removelast ((k2, p2) :: (k, p) :: e :: rest))
        with ((k2, p2) :: (k, p) :: removelast (e :: rest)).
      cbn [lru.lookup]. destruct (String.eqb_spec k2 k); [congruence|].
      now rewrite String.eqb_refl.
    + cbn [lru.lookup]. destruct (String.eqb_spec k2 k); [congruence|].
      now rewrite String.eqb_refl.
Qed.

Lemma metrics_Add_items k p u :
  lru.items (metrics (metrics_Add k p u)) =
  lru.items (snd (lru.Add k p (metrics u))).
Proof.
  unfold metrics_Add. destruct (lru.Add k p (metrics u)) as [e c].
  now rewrite evicted_metrics.
Qed.

Lemma modify_then_start_keeps k f u p ref2 unit2 start :
  (2 <= lru.size (metrics u))%nat ->
  resident u k = Some p -> id ref2 unit2 <> k ->
  resident (StartUnitChunking ref2 unit2 start (modify k f u)) k = Some p.
Proof.
  intros Hs Hr Hne. unfold modify. rewrite (metrics_Get_hit k u p Hr).
  unfold StartUnitChunking, resident. cbn [alloc].
  rewrite metrics_Add_items. cbn [update metrics].
  now apply Add_keeps_front.
Qed.

(** X11.  A unit that has just been touched is not the next one evicted:
    in a cache of capacity two or more, after an [EndUnitChunking] or a
    [ReportChunk] that finds the key of its unit, the start of another
    unit leaves that key resident with the same record pointer, even when
    the cache is full. *)
Theorem touched_unit_survives_next_start (u : UnitHook)
  (ref ref2 : JobProgressRef) (unit unit2 : SourceUnit) (p : ptr)
  (end_ start : Time) (chunk : Chunk) :
  (2 <= lru.size (metrics u))%nat ->
  resident u (id ref unit) = Some p ->
  id ref2 unit2 <> id ref unit ->
  resident (StartUnitChunking ref2 unit2 start
              (EndUnitChunking ref unit end_ u)) (id ref unit) = Some p /\
  resident (StartUnitChunking ref2 unit2 start
              (ReportChunk ref unit chunk u)) (id ref unit) = Some p.
Proof.
  intros Hs Hr Hne. split.
  - rewrite EndUnitChunking_modify. now apply modify_then_start_keeps.
  - rewrite ReportChunk_hit by congruence.
    now apply modify_then_start_keeps.
Qed.

Lemma touched_unit_survives_next_start_witness :
  let ref := mkRef 1 2 (JobProgressMetrics.mk None None []) in
  let a := Some (mkUnit "a") in
  let b := Some (mkUnit "b") in
  let c := Some (mkUnit "c") in
  let u := StartUnitChunking ref b 2
             (StartUnitChunking ref a 1 (mkUnitHook (lru.New 2) [] [])) in
  lru.oldest (lru.items (metrics u)) = Some ("1/2/a"%string, 0%nat) /\
  resident (StartUnitChunking ref c 3
              (ReportChunk ref a (mkChunk []) u)) "1/2/a"%string
  = Some 0%nat /\
  resident (StartUnitChunking ref c 3 u) "1/2/a"%string = None.
Proof.
  intros ref a b c u. split; [reflexivity|]. split; [|reflexivity].
  destruct (touched_unit_survives_next_start u ref ref a c 0%nat 9 3
              (mkChunk []) (le_n 2) eq_refl ltac:(discriminate)) as [_ E].
  exact E.
Defined.

(** ** What every reachable state satisfies *)

Lemma modify_size k f u :
  lru.size (metrics (modify k f u)) = lru.size (metrics u).
Proof.
  unfold modify. lookup_at k u p u1 Hr Hro; auto.
  apply (ro_size _ _ Hro).
Qed.

Lemma Finish_body_size ref prefix u k :
  lru.size (metrics (Finish_body ref prefix u k)) = lru.size (metrics u).
Proof.
  unfold Finish_body. destruct (negb _); auto.
  lookup_at k u p u1 Hr Hro; auto.
  destruct (Unit _); apply (ro_size _ _ Hro).
Qed.

Lemma UnitMetrics_body_size acc k :
  lru.size (metrics (snd (UnitMetrics_body acc k))) =
  lru.size (metrics (snd acc)).
Proof.
  destruct acc as [output u]. unfold UnitMetrics_body. cbn [snd].
  lookup_at k u p u1 Hr Hro; auto.
  destruct (IsFinished _); cbn [snd].
  - rewrite metrics_Remove_size. apply (ro_size _ _ Hro).
  - apply (ro_size _ _ Hro).
Qed.

Lemma Finish_loop_size ref prefix ids u :
  lru.size (metrics (fold_left (Finish_body ref prefix) ids u)) =
  lru.size (metrics u).
Proof.
  revert u. induction ids as [|k ids IH]; intros u; cbn [fold_left]; auto.
  now rewrite IH, Finish_body_size.
Qed.

Lemma UnitMetrics_loop_size ids acc :
  lru.size (metrics (snd (fold_left UnitMetrics_body ids acc))) =
  lru.size (metrics (snd acc)).
Proof.
  revert acc. induction ids as [|k ids IH]; intros acc; cbn [fold_left]; auto.
  now rewrite IH, UnitMetrics_body_size.
Qed.

(** No call changes the capacity of the cache. *)
Lemma call_size c u :
  lru.size (metrics (call c u)) = lru.size (metrics u).
Proof.
  destruct c as [ref unit start|ref unit end_|ref unit chunk|ref err|ref|];
    cbn [call].
  - unfold StartUnitChunking. cbn [alloc]. now rewrite metrics_Add_size.
  - now rewrite EndUnitChunking_modify, modify_size.
  - destruct (resident u (id ref unit)) as [p|] eqn:Hr.
    + rewrite ReportChunk_hit by congruence. apply modify_size.
    + destruct unit as [un|].
      * now rewrite ReportChunk_evicted.
      * rewrite ReportChunk_synthetic by assumption.
        cbn [update metrics alloc snd]. now rewrite metrics_Add_size.
  - rewrite ReportError_modify.
    destruct (errors_As_ChunkError err); now rewrite !modify_size.
  - apply Finish_loop_size.
  - unfold UnitMetrics_. now rewrite UnitMetrics_loop_size.
Qed.

Lemma run_size cs u : lru.size (metrics (run cs u)) = lru.size (metrics u).
Proof.
  unfold run. revert u. induction cs as [|c cs IH]; intros u; cbn; auto.
  now rewrite IH, call_size.
Qed.

(** X12.  Whatever calls a new hook receives, its cache never holds more
    than 1024 entries nor a key twice, and every cached record is filed
    under the key that [id] derives from its own job and unit, is not
    marked handled and has its two counters in the [uint64] range. *)
Theorem reachable_state_invariant (cs : list Call) :
  let u := run cs NewUnitHook in
  (lru.Len (metrics u) <= 1024)%nat /\
  NoDup (lru.Keys (metrics u)) /\
  forall k m,
    entry u k = Some m ->
    id (Parent m) (Unit m) = k /\ handled m = false /\
    0 <= TotalChunks m < 2 ^ 64 /\ 0 <= TotalBytes m < 2 ^ 64.
Proof.
  intros u. assert (H : WF u) by (apply WF_run, WF_NewUnitHook).
  split; [|split].
  - pose proof (WF_len _ H) as Hl. unfold u in Hl at 2.
    now rewrite run_size in Hl.
  - now apply NoDup_Keys.
  - intros k m Hm. destruct (WF_entry u k m H Hm) as (p & Hr & -> & _).
    split; [apply (WF_key _ H _ _ Hr)|].
    split; [apply (WF_unhandled _ H _ _ Hr)|].
    apply in_range_iff, (WF_range _ H _ _ Hr).
Qed.

(** ** Evictions and diagnostics *)

Lemma metrics_Add_logs_at_most_one k p u :
  exists d, logger (metrics_Add k p u) = logger u ++ d /\
            (List.length d <= 1)%nat.
Proof.
  unfold metrics_Add. destruct (lru.Add k p (metrics u)) as [e c].
  rewrite evicted_logger. cbn [heap logger].
  eexists. split; [reflexivity|].
  destruct e as [[k' p']|]; [destruct (handled _)|]; cbn; lia.
Qed.

(** X13.  A call logs at most one diagnostic, and only a call that can
    insert a key, a start or a chunk of a source without units, logs any:
    [EndUnitChunking], [ReportChunk] for a unit, [ReportError], [Finish]
    and [UnitMetrics()] never evict with a diagnostic. *)
Theorem at_most_one_diagnostic_per_call (u : UnitHook) (c : Call) :
  wf u = true ->
  exists d,
    logger (call c u) = logger u ++ d /\
    (List.length d <= 1)%nat /\
    (inserts c = false -> d = []).
Proof.
  intros H. apply wf_WF in H.
  assert (Q : forall v, logger v = logger u ->
                        exists d, logger v = logger u ++ d /\
                                  (List.length d <= 1)%nat /\
                                  (inserts c = false -> d = [])).
  { intros v E. exists []. rewrite app_nil_r. cbn. auto. }
  destruct c as [ref unit start|ref unit end_|ref unit chunk|ref err|ref|];
    cbn [call].
  - unfold StartUnitChunking. cbn [alloc].
    match goal with
    | |- context [metrics_Add ?a ?b ?v] =>
        destruct (metrics_Add_logs_at_most_one a b v) as (d & E & L)
    end.
    exists d. repeat split; auto. discriminate.
  - apply Q. now rewrite EndUnitChunking_modify, modify_logger.
  - destruct (resident u (id ref unit)) as [p|] eqn:Hr.
    + apply Q. rewrite ReportChunk_hit by congruence. apply modify_logger.
    + destruct unit as [un|].
      * apply Q. now rewrite ReportChunk_evicted.
      * rewrite ReportChunk_synthetic by assumption.
        cbn [update logger alloc snd].
        match goal with
        | |- context [metrics_Add ?a ?b ?v] =>
            destruct (metrics_Add_logs_at_most_one a b v) as (d & E & L)
        end.
        exists d. repeat split; auto. discriminate.
  - apply Q, ReportError_logger.
  - apply Q, Finish_logger.
  - apply Q. now destruct (UnitMetrics_spec u H) as (_ & E & _).
Qed.

Lemma at_most_one_diagnostic_per_call_witness :
  let ref := mkRef 1 2 (JobProgressMetrics.mk None None []) in
  let a := Some (mkUnit "a") in
  let b := Some (mkUnit "b") in
  let u := StartUnitChunking ref b 2
             (StartUnitChunking ref a 1 (mkUnitHook (lru.New 2) [] [])) in
  exists d,
    logger (ReportChunk ref None (mkChunk []) u) = logger u ++ d /\
    (List.length d <= 1)%nat.
Proof.
  intros ref a b u.
  destruct (at_most_one_diagnostic_per_call u
              (CallReportChunk ref None (mkChunk [])) eq_refl)
    as (d & E & L & _).
  exists d. split; [exact E|exact L].
Defined.

(** X14.  A chunk of a source without units can evict: when the no-unit
    key of the job is absent and the cache is full, [ReportChunk] with the
    nil unit drops the oldest entry, whose record it logs, to make room
    for the new no-unit record. *)
Theorem ReportChunk_without_unit_evicts_oldest (u : UnitHook)
  (ref : JobProgressRef) (chunk : Chunk) (ko : string) (po : ptr) :
  wf u = true ->
  resident u (id ref None) = None ->
  lru.Len (metrics u) = lru.size (metrics u) ->
  lru.oldest (lru.items (metrics u)) = Some (ko, po) ->
  logger (ReportChunk ref None chunk u) =
    logger u ++ [(ko, deref (heap u) po)] /\
  resident (ReportChunk ref None chunk u) ko = None /\
  resident (ReportChunk ref None chunk u) (id ref None) <> None.
Proof.
  intros H Hk Hfull Hold. apply wf_WF in H.
  assert (Hko : resident u ko = Some po).
  { apply In_lookup; [apply (WF_keys _ H)|now apply oldest_In]. }
  pose proof (WF_unhandled _ H _ _ Hko) as Hh.
  pose proof (WF_ptr _ H _ _ Hko) as Hlt.
  split; [|split].
  - rewrite ReportChunk_synthetic by assumption.
    cbn [update logger alloc snd].
    match goal with
    | |- context [metrics_Add ?k ?p ?v] =>
        destruct (metrics_Add_full k p v ko po) as (Hl & _ & _); auto;
          try apply (WF_keys _ H)
    end.
    rewrite Hl. cbn [heap logger]. rewrite deref_alloc_old by assumption.
    now rewrite Hh.
  - rewrite ReportChunk_synthetic, update_resident by assumption.
    cbn [alloc snd].
    match goal with
    | |- context [metrics_Add ?k ?p ?v] =>
        destruct (metrics_Add_full k p v ko po) as (_ & Hr & _); auto;
          try apply (WF_keys _ H)
    end.
  - intros Hn. apply entry_None in Hn.
    rewrite ReportChunk_synthetic_entry_eq in Hn by assumption.
    discriminate.
Qed.

Lemma ReportChunk_without_unit_evicts_oldest_witness :
  let ref := mkRef 1 2 (JobProgressMetrics.mk None None []) in
  let a := Some (mkUnit "a") in
  let b := Some (mkUnit "b") in
  let u := StartUnitChunking ref b 2
             (StartUnitChunking ref a 1 (mkUnitHook (lru.New 2) [] [])) in
  map fst (logger (ReportChunk ref None (mkChunk []) u)) = ["1/2/a"%string] /\
  resident (ReportChunk ref None (mkChunk []) u) "1/2/a"%string = None.
Proof.
  intros ref a b u.
  destruct (ReportChunk_without_unit_evicts_oldest u ref (mkChunk [])
              "1/2/a"%string 0%nat eq_refl eq_refl eq_refl eq_refl)
    as (L & R & _).
  split; [rewrite L; reflexivity|exact R].
Defined.

(** ** The end of a job without units *)

(** X16.  [Finish] decides whether the no-unit record of a job is ever
    drained.  When the job snapshot has an end time, the record is finished
    by [Finish] and the next [UnitMetrics()] returns it once, with the
    snapshot values, and removes it without a diagnostic.  When the
    snapshot has no end time, the record is not finished, whatever end
    time it had, and [UnitMetrics()] returns it and keeps it. *)
Theorem Finish_then_read_no_unit_entry (u : UnitHook) (ref : JobProgressRef)
  (m : UnitMetrics) :
  let key := id ref None in
  let v := Finish ref u in
  let m' := useJobMetrics (Snapshot ref) m in
  wf u = true ->
  entry u key = Some m ->
  Unit m = None ->
  records_for key (fst (UnitMetrics_ v)) = [m'] /\
  logger (snd (UnitMetrics_ v)) = logger u /\
  (JobProgressMetrics.EndTime (Snapshot ref) <> None ->
   resident (snd (UnitMetrics_ v)) key = None) /\
  (JobProgressMetrics.EndTime (Snapshot ref) = None ->
   IsFinished m' = false /\ entry (snd (UnitMetrics_ v)) key = Some m').
Proof.
  intros key v m' H Hm HU. apply wf_WF in H.
  assert (Hv : WF v) by now apply WF_Finish.
  assert (Em : entry v key = Some m').
  { unfold v. rewrite Finish_entry, Hm by assumption. cbn.
    unfold finishMetrics, HasPrefix, key. now rewrite prefix_refl, HU. }
  destruct (UnitMetrics_spec v Hv) as (_ & Hl & Hrec & He).
  split; [|split; [|split]].
  - rewrite Hrec. unfold view. now rewrite Em.
  - rewrite Hl. apply Finish_logger.
  - intros Hend. apply entry_None. rewrite He, Em. cbn.
    unfold IsFinished. cbn. now destruct (JobProgressMetrics.EndTime _).
  - intros Hend.
    assert (F : IsFinished m' = false).
    { unfold IsFinished. cbn. now rewrite Hend. }
    split; [exact F|]. rewrite He, Em. cbn. now rewrite F.
Qed.

Lemma Finish_then_read_no_unit_entry_witness :
  let ref0 := mkRef 1 2 (JobProgressMetrics.mk (Some 5) None []) in
  let ref := mkRef 1 2 (JobProgressMetrics.mk (Some 5) (Some 9) []) in
  let u := ReportChunk ref0 None (mkChunk [Byte.x00]) NewUnitHook in
  records_for "1/2/"%string (fst (UnitMetrics_ (Finish ref u))) =
    [mkUnitMetrics None ref0 (Some 5) (Some 9) 1 1 [] false] /\
  resident (snd (UnitMetrics_ (Finish ref u))) "1/2/"%string = None /\
  entry (snd (UnitMetrics_ (Finish ref0 u))) "1/2/"%string =
    Some (mkUnitMetrics None ref0 (Some 5) None 1 1 [] false).
Proof.
  intros ref0 ref u.
  destruct (Finish_then_read_no_unit_entry u ref
              (mkUnitMetrics None ref0 (Some 5) None 1 1 [] false)
              eq_refl eq_refl eq_refl) as (R & _ & D & _).
  destruct (Finish_then_read_no_unit_entry u ref0
              (mkUnitMetrics None ref0 (Some 5) None 1 1 [] false)
              eq_refl eq_refl eq_refl) as (_ & _ & _ & K).
  split; [exact R|]. split; [apply D; discriminate|].
  now destruct (K eq_refl) as [_ E].
Defined.
